(** * peerstore: server-side envelope handlers and client synchronisation

    A shallow embedding of [file/handlers.go] (the envelope handlers run by
    a storage node) and of the client's [Synchronize] / [PostFile] /
    [DeleteFile] functions, together with the properties of the design
    document that concern them.

    Conventions.
    - A Go [byte] is a [Byte.byte]; a [[]byte] is a [list byte].
    - [models.Identifier] is the array type [[20]byte]; it is kept as the
      list of its bytes.
    - [uint64] clocks and timestamps are kept in [Z]; the code only
      compares them.
    - The block store behind [Get] / [Post] / [Delete] is a finite map from
      identifiers to blobs. *)

From Stdlib Require Import ZArith Lia List Strings.Byte.
From stdpp Require Import base option list gmap strings.

#[global] Instance byte_eq_decision : EqDecision byte := Byte.byte_eq_dec.
#[global] Instance byte_countable : Countable byte :=
  inj_countable Byte.to_N Byte.of_N Byte.of_to_N.

(** Go's conversion [byte(n)] of a non-negative [int]: the low eight bits. *)
Definition byte_of_int (n : nat) : byte :=
  default Byte.x00 (Byte.of_nat (n mod 256)).

(* ------------------------------------------------------------------ *)
(** * Package [models] *)

Module models.

Abbreviation Identifier := (list byte).

(** Modelled from the spec: [models.IncrementClock], whose body lies
    outside the files embedded here.  The design document gives the
    process-wide logical clock as a 64-bit counter updated on every send
    and receive by [clock := max(clock, peer_clock) + 1]; the callers use
    the returned value as the new clock.  The sum is a [uint64] sum, which
    wraps at [2^64].  The first component is the value returned, the second
    the clock afterwards. *)
Definition IncrementClock (peer_clock : Z) (clock : Z) : Z * Z :=
  let c := ((Z.max clock peer_clock + 1) mod 2 ^ 64)%Z in (c, c).

(** Modelled from the spec: [models.GetClock] reads the counter. *)
Definition GetClock (clock : Z) : Z := clock.

(** The transaction-log types, with the fields [PostFile] and [DeleteFile]
    build them with and [Synchronize] reads. *)
Inductive Operation := UpdateOperation | DeleteOperation.

#[global] Instance Operation_eq_dec : EqDecision Operation.
Proof. solve_decision. Defined.

Record TransactionEntry := {
  Operation_ : Operation;
  ClientID : Identifier;
  Timestamp : Z;
}.

Record TransactionEntity := {
  ResourceName_ : string;
  ResourceID : Identifier;
  Entries : list TransactionEntry;
}.

Abbreviation TransactionLog := (gmap string TransactionEntity).

End models.

(* ------------------------------------------------------------------ *)
(** * Package [protocol]: the parts of requests and responses that the
    handlers read or write. *)

Module protocol.

Inductive Status := Success | Error.

#[global] Instance Status_eq_dec : EqDecision Status.
Proof. solve_decision. Defined.

Inductive Method :=
| UserRegistrationMethod | GetSuccessorMethod | GetFileMethod
| PostFileMethod | DeleteFileMethod | GetPublicKeyMethod
| PostPublicKeyMethod.

Record SharedSecret := {
  ss_ID : models.Identifier;
  ss_Secret : list byte;
}.

(** [Header.Type] and [Header.PubKey] are carried but never inspected by
    the code below; they are left out. *)
Record Header := {
  Key : models.Identifier;
  From : models.Identifier;
  DataLength : nat;
  ResourceName : string;
  Log : bool;
  Clock : Z;
  Secret : list byte;
  SharedWith : list SharedSecret;
}.

(** The zero value of [Header]. *)
Definition Header0 : Header :=
  {| Key := []; From := []; DataLength := 0; ResourceName := EmptyString;
     Log := false; Clock := 0%Z; Secret := []; SharedWith := [] |}.

Record Request := {
  req_Header : Header;
  req_Method : Method;
  req_Data : list byte;
}.

Record Response := {
  resp_Header : Header;
  resp_Status : Status;
  resp_Data : list byte;
}.

(** [protocol.Response{Status: protocol.Error}] *)
Definition ErrorResponse : Response :=
  {| resp_Header := Header0; resp_Status := Error; resp_Data := [] |}.

End protocol.

(* ------------------------------------------------------------------ *)
(** * Package [file]: the handlers of [file/handlers.go] *)

Module file.
Import protocol.

Record idSecret := {
  ID : models.Identifier;
  Secret_ : list byte;
}.

Definition sessionKeyLen : nat := 256.

(** The state a handler runs against: the process-wide logical clock and
    the blobs stored under the node's data path. *)
Record Server := {
  clock : Z;
  blobs : gmap (list byte) (list byte);
}.

(** Modelled from the spec: [Get], [Post] and [Delete] of package [file]
    are the block store, "a key-to-bytes map with atomic replace".  [Get]
    fails exactly when nothing is stored under the key; the reader it
    returns is the stored blob, consumed from the front.  [Post] and
    [Delete] do not fail: errors of the disk are not part of the model. *)
Definition Get (s : Server) (key : models.Identifier) : option (list byte) :=
  blobs s !! key.

Definition Post (key : models.Identifier) (blob : list byte) (s : Server)
  : Server :=
  {| clock := clock s; blobs := <[key := blob]> (blobs s) |}.

Definition Delete (key : models.Identifier) (s : Server) : Server :=
  {| clock := clock s; blobs := delete key (blobs s) |}.

(** [models.IncrementClock] run against the server's clock. *)
Definition IncrementClock (peer_clock : Z) (s : Server) : Z * Server :=
  let '(t, c) := models.IncrementClock peer_clock (clock s) in
  (t, {| clock := c; blobs := blobs s |}).

(** [n, err := buf.Read(p)] with [len(p) = len]: the bytes read, whether
    [err] is non-nil (only [io.EOF], when nothing is left), and the rest of
    the reader. *)
Definition Read (len : nat) (buf : list byte) : list byte * bool * list byte :=
  (take len buf, bool_decide (buf = [] ∧ len ≠ 0), drop len buf).

(** The pattern repeated after each header read:
    [if n != len { return Error }; if err != nil { return Error }]. *)
Definition read_exact (len : nat) (buf : list byte)
  : option (list byte * list byte) :=
  let '(p, err, buf') := Read len buf in
  if negb (length p =? len) then None
  else if err then None
  else Some (p, buf').

(** [for i := byte(0); i < ownerCount[0]; i++ { ... }]: read one 20-byte
    id and one [sessionKeyLen]-byte secret per round. *)
Fixpoint read_idSecrets (count : nat) (buf : list byte)
  (idSecrets : list idSecret) : option (list idSecret * list byte) :=
  match count with
  | O => Some (idSecrets, buf)
  | S count' =>
      '(idSlice, buf1) ← read_exact 20 buf;
      '(secretSlice, buf2) ← read_exact sessionKeyLen buf1;
      read_idSecrets count' buf2
        (idSecrets ++ [{| ID := idSlice; Secret_ := secretSlice |}])
  end.

(** Owner count byte, then the owner table; [None] is the [Error] reply. *)
Definition read_header (buf : list byte)
  : option (list idSecret * list byte) :=
  '(ownerCount, buf1) ← read_exact 1 buf;
  read_idSecrets (Byte.to_nat (hd x00 ownerCount)) buf1 [].

(** [for _, pair := range idSecrets { if bytes.Compare(pair.ID[:],
    r.Header.From[:]) == 0 { found = true; response.Header.Secret =
    pair.Secret } }], from [found = false] and the secret the response
    starts with. *)
Definition check_ids (from : models.Identifier) (idSecrets : list idSecret)
  (secret : list byte) : bool * list byte :=
  fold_left
    (fun st pair =>
       if decide (ID pair = from) then (true, Secret_ pair) else st)
    idSecrets (false, secret).

(** [for n := 1; n > 0; { tmp := make([]byte, 256); n, err = buf.Read(tmp);
    response.Data = append(response.Data, tmp[:n]...); ... }].  The only
    error of the reader is [io.EOF], on which the loop continues and then
    stops since [n = 0]. *)
Fixpoint read_data (fuel : nat) (buf data : list byte) : list byte :=
  match fuel with
  | O => data
  | S fuel' =>
      let '(tmp, _, buf') := Read 256 buf in
      let data' := data ++ tmp in
      if length tmp =? 0 then data' else read_data fuel' buf' data'
  end.

Definition read_to_end (buf : list byte) : list byte :=
  read_data (S (length buf)) buf [].

Definition with_Secret (h : Header) (secret : list byte) : Header :=
  {| Key := Key h; From := From h; DataLength := DataLength h;
     ResourceName := ResourceName h; Log := Log h; Clock := Clock h;
     Secret := secret; SharedWith := SharedWith h |}.

Definition with_Clock (h : Header) (c : Z) : Header :=
  {| Key := Key h; From := From h; DataLength := DataLength h;
     ResourceName := ResourceName h; Log := Log h; Clock := c;
     Secret := Secret h; SharedWith := SharedWith h |}.

(** The bytes appended to a header for one owner record. *)
Definition put_idSecret (pair : idSecret) : list byte :=
  ID pair ++ Secret_ pair.

Definition put_shareWith (shareWith : SharedSecret) : list byte :=
  ss_ID shareWith ++ ss_Secret shareWith.

Definition GetPublicKeyHandler (r : Request) (s : Server)
  : Response * Server :=
  let '(timestamp, s) := IncrementClock (Clock (req_Header r)) s in
  match Get s (Key (req_Header r)) with
  | None => (ErrorResponse, s)
  | Some buf =>
      ({| resp_Header := with_Clock Header0 timestamp;
          resp_Status := Success;
          resp_Data := read_to_end buf |}, s)
  end.

Definition GetFileHandler (r : Request) (s : Server) : Response * Server :=
  match Get s (Key (req_Header r)) with
  | None => (ErrorResponse, s)
  | Some buf =>
      match read_header buf with
      | None => (ErrorResponse, s)
      | Some (idSecrets, buf) =>
          let '(found, secret) :=
            check_ids (From (req_Header r)) idSecrets [] in
          if negb found then (ErrorResponse, s)
          else
            ({| resp_Header := with_Secret Header0 secret;
                resp_Status := Success;
                resp_Data := read_to_end buf |}, s)
      end
  end.

Definition PostPublicKeyHandler (r : Request) (s : Server)
  : Response * Server :=
  let '(timestamp, s) := IncrementClock (Clock (req_Header r)) s in
  let s := Post (Key (req_Header r)) (req_Data r) s in
  ({| resp_Header := with_Clock Header0 timestamp;
      resp_Status := Success;
      resp_Data := [] |}, s).

Definition PostFileHandler (r : Request) (s : Server) : Response * Server :=
  let h := req_Header r in
  let got := Get s (Key h) in
  let '(timestamp, s) := IncrementClock (Clock h) s in
  match got with
  | None =>
      let header :=
        [byte_of_int (1 + length (SharedWith h))]
          ++ From h ++ Secret h
          ++ concat (map put_shareWith (SharedWith h)) in
      let s := Post (Key h) (header ++ req_Data r) s in
      ({| resp_Header := with_Clock Header0 timestamp;
          resp_Status := Success;
          resp_Data := [] |}, s)
  | Some buf =>
      match read_header buf with
      | None => (ErrorResponse, s)
      | Some (idSecrets, _) =>
          let '(found, secret) := check_ids (From h) idSecrets [] in
          if negb found then (ErrorResponse, s)
          else
            let header :=
              [byte_of_int (length idSecrets + length (SharedWith h))]
                ++ concat (map put_idSecret idSecrets)
                ++ concat (map put_shareWith (SharedWith h)) in
            let s := Post (Key h) (header ++ req_Data r) s in
            ({| resp_Header :=
                  with_Secret (with_Clock Header0 timestamp) secret;
                resp_Status := Success;
                resp_Data := [] |}, s)
      end
  end.

(** On a failed [Get] the handler closes the reader it did not get and
    replies [Error]; the reply is what is kept here. *)
Definition DeleteFileHandler (r : Request) (s : Server)
  : Response * Server :=
  let h := req_Header r in
  match Get s (Key h) with
  | None => (ErrorResponse, s)
  | Some buf =>
      match read_header buf with
      | None => (ErrorResponse, s)
      | Some (idSecrets, _) =>
          let '(timestamp, s) := IncrementClock (Clock h) s in
          let '(found, secret) := check_ids (From h) idSecrets [] in
          if negb found then (ErrorResponse, s)
          else
            let s := Delete (Key h) s in
            ({| resp_Header :=
                  with_Secret (with_Clock Header0 timestamp) secret;
                resp_Status := Success;
                resp_Data := [] |}, s)
      end
  end.

(** The five handlers of the file, as one dispatch on the method. *)
Inductive Handler :=
| HGetFile | HPostFile | HDeleteFile | HGetPublicKey | HPostPublicKey.

Definition run (hd : Handler) : Request -> Server -> Response * Server :=
  match hd with
  | HGetFile => GetFileHandler
  | HPostFile => PostFileHandler
  | HDeleteFile => DeleteFileHandler
  | HGetPublicKey => GetPublicKeyHandler
  | HPostPublicKey => PostPublicKeyHandler
  end.

End file.

(* ------------------------------------------------------------------ *)
(** * Package [main]: the client's synchronisation *)

Module client.
Import models protocol.

(** [aes.BlockSize] *)
Definition aes_BlockSize : nat := 16.

(** What a run of [Synchronize] does to the outside world, one event per
    call in the loop body: [GetFile], [os.Remove] of the local copy,
    [DeleteFile] and [PostFile], each on a relative path. *)
Inductive Effect :=
| EGetFile (path : string)
| ERemove (path : string)
| EDeleteFile (path : string)
| EPostFile (path : string).

(** A Go function either returns or panics (here: index out of range). *)
Inductive Outcome (A : Type) :=
| Returned (a : A)
| Panicked.
Arguments Returned {A} a.
Arguments Panicked {A}.

(** [lastEntry := v.Entries[0]; for i, _ := range v.Entries { if
    v.Entries[i].Timestamp >= lastEntry.Timestamp { lastEntry =
    v.Entries[i] } }]; [None] is the panic of [v.Entries[0]] on an empty
    slice. *)
Definition pick (lastEntry e : TransactionEntry) : TransactionEntry :=
  if (Timestamp e >=? Timestamp lastEntry)%Z then e else lastEntry.

Definition lastEntryOf (entries : list TransactionEntry)
  : option TransactionEntry :=
  match entries with
  | [] => None
  | e0 :: _ => Some (fold_left pick entries e0)
  end.

(** The body of [for k, v := range tl { ... }]. *)
Definition reconcile (k : string) (v : TransactionEntity)
  (oldTransactionLog : TransactionLog) : option (list Effect) :=
  lastEntry ← lastEntryOf (Entries v);
  match oldTransactionLog !! k with
  | None => Some [EGetFile k]
  | Some oldv =>
      oldLastEntry ← lastEntryOf (Entries oldv);
      if (Timestamp oldLastEntry <? Timestamp lastEntry)%Z then
        if decide (Operation_ lastEntry = DeleteOperation)
        then Some [ERemove k]
        else Some [EGetFile k]
      else if (Timestamp oldLastEntry =? Timestamp lastEntry)%Z then
        Some []
      else
        if decide (Operation_ oldLastEntry = DeleteOperation)
        then Some [EDeleteFile k]
        else Some [EPostFile k]
  end.

(** The loop over the fetched log, in the order [kvs] in which the map is
    ranged over; the effects so far are kept when an iteration panics. *)
Fixpoint range_tl (kvs : list (string * TransactionEntity))
  (oldTransactionLog : TransactionLog) : list Effect * Outcome unit :=
  match kvs with
  | [] => ([], Returned tt)
  | (k, v) :: kvs' =>
      match reconcile k v oldTransactionLog with
      | None => ([], Panicked)
      | Some effs =>
          let '(effs', out) := range_tl kvs' oldTransactionLog in
          (effs ++ effs', out)
      end
  end.

(** [walkFn] over the regular files below [localPath], given by their
    relative paths in walk order: post what the fetched log does not
    know.  This is the walk in which every [Lstat] succeeds;
    [client_walk] below has [walkFn] call by call, with the nil
    [FileInfo] of a failed [Lstat]. *)
Definition walk (localFiles : list string) (tl : TransactionLog)
  : list Effect :=
  map EPostFile (filter (fun path => tl !! path = None) localFiles).

(** [Synchronize]: [fetched] is what [GetTransactionLog] gave ([None] when
    it failed, in which case the log is the empty one it returns with the
    error).  Go leaves the order of a map range open; [map_to_list] fixes
    one, and [range_tl] is stated for any. *)
Definition Synchronize (localFiles : list string)
  (fetched : option TransactionLog) (oldTransactionLog : TransactionLog)
  : list Effect * Outcome TransactionLog :=
  let tl : TransactionLog := default ∅ fetched in
  let posted := walk localFiles tl in
  let '(effs, out) := range_tl (map_to_list tl) oldTransactionLog in
  (posted ++ effs,
   match out with Returned _ => Returned tl | Panicked => Panicked end).

Section Requests.

(** [sha1.Sum], from the Go library. *)
Variable sha1 : list byte -> Identifier.

(** The files below [localPath], by relative path; [ioutil.ReadFile] gives
    [nil] (and an error that [PostFile] overwrites) for a missing one. *)
Definition ReadFile (fs : gmap string (list byte)) (path : string)
  : list byte :=
  default [] (fs !! path).

(** The request [PostFile] sends to the responsible node with
    [t.RoundTrip]; [clock] is the client's logical clock at that point. *)
Definition PostFile_request (clientID : Identifier) (path : string)
  (fs : gmap string (list byte)) (clock : Z) : Request :=
  let key := sha1 (String.list_byte_of_string path) in
  let data := ReadFile fs path in
  {| req_Header :=
       {| Key := key; From := clientID; DataLength := length data;
          ResourceName := path; Log := true; Clock := GetClock clock;
          Secret := []; SharedWith := [] |};
     req_Method := PostFileMethod;
     req_Data := data |}.

(** The modify step of the read-modify-write of the transaction log, shared
    by [PostFile] ([UpdateOperation]) and [DeleteFile]
    ([DeleteOperation]). *)
Definition append_entry (op : Operation) (clientID : Identifier)
  (path : string) (timestamp : Z) (tl : TransactionLog) : TransactionLog :=
  let entry :=
    {| Operation_ := op; ClientID := clientID; Timestamp := timestamp |} in
  match tl !! path with
  | Some entity =>
      <[path := {| ResourceName_ := ResourceName_ entity;
                   ResourceID := ResourceID entity;
                   Entries := Entries entity ++ [entry] |}]> tl
  | None =>
      <[path := {| ResourceName_ := path;
                   ResourceID := sha1 (String.list_byte_of_string path);
                   Entries := [entry] |}]> tl
  end.

End Requests.

End client.

(* ------------------------------------------------------------------ *)
(** * The envelope format of the design document *)

Module envelope_format.
Import models protocol file.

(** An owner record as the parser produces it: a 20-byte id and a
    [sessionKeyLen]-byte wrapped key. *)
Definition wf_idSecret (pair : idSecret) : Prop :=
  length (ID pair) = 20 ∧ length (Secret_ pair) = sessionKeyLen.

(** The envelope layout of the design document: count byte, owner table,
    ciphertext. *)
Definition envelope (owners : list idSecret) (ciphertext : list byte)
  : list byte :=
  [byte_of_int (length owners)]
    ++ concat (map put_idSecret owners) ++ ciphertext.

(** The wrapped key of the first, respectively last, record of the owner
    table whose id is [from]. *)
Definition first_match (from : Identifier) (owners : list idSecret)
  : option (list byte) :=
  Secret_ <$> find (fun pair => bool_decide (ID pair = from)) owners.

Definition last_match (from : Identifier) (owners : list idSecret)
  : option (list byte) :=
  first_match from (rev owners).

(** A shared-with record of a request, as the owner record it becomes. *)
Definition idSecret_of (shareWith : SharedSecret) : idSecret :=
  {| ID := ss_ID shareWith; Secret_ := ss_Secret shareWith |}.

(** The reply of a successful [GetFile]. *)
Definition GetFile_reply (w ciphertext : list byte) : Response :=
  {| resp_Header := with_Secret Header0 w;
     resp_Status := Success;
     resp_Data := ciphertext |}.

(** The reply of a successful [PostFile] over an existing envelope. *)
Definition PostFile_reply (timestamp : Z) (w : list byte) : Response :=
  {| resp_Header := with_Secret (with_Clock Header0 timestamp) w;
     resp_Status := Success;
     resp_Data := [] |}.

End envelope_format.

(* ------------------------------------------------------------------ *)
(** * The selection rule of the synchronisation *)

Module sync_vocabulary.
Import models client.

(** [e] is the entry of [entries] with the maximum timestamp, the one
    latest in the list when several entries carry it. *)
Definition is_last_max (entries : list TransactionEntry)
  (e : TransactionEntry) : Prop :=
  ∃ l1 l2,
    entries = l1 ++ e :: l2 ∧
    (∀ x, x ∈ l1 → (Timestamp x ≤ Timestamp e)%Z) ∧
    (∀ x, x ∈ l2 → (Timestamp x < Timestamp e)%Z).

(** Every entity of the log has at least one entry. *)
Definition entries_nonempty (tl : TransactionLog) : Prop :=
  ∀ k v, tl !! k = Some v → Entries v ≠ [].

End sync_vocabulary.

(* ------------------------------------------------------------------ *)
(** * Sample identifiers, envelopes, requests and logs *)

Module examples.
Import models protocol file envelope_format.

Definition idA : Identifier := replicate 20 x01.
Definition idB : Identifier := replicate 20 x02.
Definition idC : Identifier := replicate 20 x03.
Definition secA : list byte := replicate 256 xa1.
Definition secA' : list byte := replicate 256 xa2.
Definition secB : list byte := replicate 256 xb1.
Definition key0 : Identifier := replicate 20 x07.
Definition cipher0 : list byte := [x10; x11; x12].
Definition cipher1 : list byte := [x20; x21].

Definition ownerA : idSecret := {| ID := idA; Secret_ := secA |}.
Definition ownerA' : idSecret := {| ID := idA; Secret_ := secA' |}.
Definition ownerB : idSecret := {| ID := idB; Secret_ := secB |}.
Definition shareB : SharedSecret := {| ss_ID := idB; ss_Secret := secB |}.

(** A request on [key0]. *)
Definition request (m : Method) (from : Identifier) (peer_clock : Z)
  (secret : list byte) (shared : list SharedSecret) (data : list byte)
  : Request :=
  {| req_Header :=
       {| Key := key0; From := from; DataLength := length data;
          ResourceName := "x.txt"; Log := true; Clock := peer_clock;
          Secret := secret; SharedWith := shared |};
     req_Method := m;
     req_Data := data |}.

(** A node whose clock is at [c] and which stores [blob] under [key0]. *)
Definition server_with (c : Z) (blob : list byte) : Server :=
  {| clock := c; blobs := {[ key0 := blob ]} |}.

Definition empty_server (c : Z) : Server := {| clock := c; blobs := ∅ |}.

End examples.

Module sync_examples.
Import models client examples.

Definition entry (op : Operation) (timestamp : Z) : TransactionEntry :=
  {| Operation_ := op; ClientID := idA; Timestamp := timestamp |}.

Definition entity (path : string) (entries : list TransactionEntry)
  : TransactionEntity :=
  {| ResourceName_ := path; ResourceID := key0; Entries := entries |}.

(** The remote log has seen an update at 3, a delete at 7 and, later in
    the list, an update at 7; the prior log stopped at the update at 3. *)
Definition remote_a : TransactionEntity :=
  entity "a.txt"
    [entry UpdateOperation 3; entry DeleteOperation 7;
     entry UpdateOperation 7].

Definition prior_a : TransactionEntity :=
  entity "a.txt" [entry UpdateOperation 3].

Definition remote_log : TransactionLog :=
  {[ "a.txt" := remote_a; "b.txt" := entity "b.txt" [entry DeleteOperation 4] ]}.

Definition prior_log : TransactionLog :=
  {[ "a.txt" := prior_a ]}.

(** A log with an entity that has no entry. *)
Definition hollow_log : TransactionLog :=
  {[ "a.txt" := entity "a.txt" [] ]}.

Definition hello : list byte := [x68; x65; x6c; x6c; x6f].

Definition hello_fs : gmap string (list byte) := {[ "x.txt" := hello ]}.

End sync_examples.

(* ------------------------------------------------------------------ *)
(** * Package [main]: validation of the command line *)

Module params.

(** The flags [validateParams] looks at. *)
Record Flags := {
  peerAddr : string;
  operation : string;
  localPath : string;
  filename : string;
  filedest : string;
}.

(** The errors it returns, in the order of the source: "peerAddr must be
    set", "localPath must be set", the wrapped error of [os.Stat],
    "localPath must be a valid directory", "filedest must be set",
    "filename must be set", "must specify operation flag, ...". *)
Inductive ParamError :=
| ErrPeerAddr | ErrLocalPath | ErrStat | ErrNotDir
| ErrFiledest | ErrFilename | ErrOperation.

(** The block the [backup] and the [sync] branch share word for word;
    [stat] is [os.Stat]: [None] when it fails, else whether the path is a
    directory. *)
Definition check_localPath (stat : string -> option bool) (f : Flags)
  : option ParamError :=
  if decide (localPath f = EmptyString) then Some ErrLocalPath
  else match stat (localPath f) with
       | None => Some ErrStat
       | Some isDir => if negb isDir then Some ErrNotDir else None
       end.

(** [validateParams]; [None] is the [nil] error. *)
Definition validateParams (stat : string -> option bool) (f : Flags)
  : option ParamError :=
  if decide (peerAddr f = EmptyString) then Some ErrPeerAddr
  else if decide (operation f = "backup") then check_localPath stat f
  else if decide (operation f = "sync") then check_localPath stat f
  else if decide (operation f = "getfile") then
    if decide (filedest f = EmptyString) then Some ErrFiledest
    else if decide (filename f = EmptyString) then Some ErrFilename
    else None
  else if decide (operation f = "share") then
    if decide (filename f = EmptyString) then Some ErrFilename else None
  else Some ErrOperation.

End params.

(* ------------------------------------------------------------------ *)
(** * Further sample data *)

Module more_examples.
Import models protocol file envelope_format examples.

Definition ownerC : idSecret := {| ID := idC; Secret_ := secB |}.

Definition key1 : Identifier := replicate 20 x08.

(** 300 bytes of file content. *)
Definition long_data : list byte := replicate 256 x41 ++ replicate 44 x42.

Definition share_flags : params.Flags :=
  {| params.peerAddr := "localhost:3000"; params.operation := "share";
     params.localPath := ""; params.filename := "x.txt";
     params.filedest := "" |}.

End more_examples.

(* ------------------------------------------------------------------ *)
(** * Package [main]: [Synchronize] with the walk call by call *)

Module client_walk.
Import models client.

(** One call of [walkFn] by [filepath.Walk]: the path, already relative to
    [localPath], and the [FileInfo] passed: [Some d] is one whose [IsDir()]
    is [d]; [None] is the nil [FileInfo] that [filepath.Walk] passes
    together with the error of a failed [Lstat]. *)
Record WalkCall := {
  wc_path : string;
  wc_fi : option bool;
}.

(** [walkFn]: it ignores its [err] argument, calls [fi.IsDir()], which
    panics on the nil [FileInfo] ([None] here), posts a non-directory that
    the fetched log does not have, and returns [nil] in every case, so the
    walk goes on. *)
Definition walkFn (tl : TransactionLog) (c : WalkCall)
  : option (list Effect) :=
  match wc_fi c with
  | None => None
  | Some isDir =>
      if negb isDir then
        if decide (tl !! wc_path c = None)
        then Some [EPostFile (wc_path c)]
        else Some []
      else Some []
  end.

(** [filepath.Walk(localPath, walkFn)], as the calls it makes in order. *)
Fixpoint Walk (calls : list WalkCall) (tl : TransactionLog)
  : list Effect * Outcome unit :=
  match calls with
  | [] => ([], Returned tt)
  | c :: calls' =>
      match walkFn tl c with
      | None => ([], Panicked)
      | Some effs =>
          let '(effs', out) := Walk calls' tl in
          (effs ++ effs', out)
      end
  end.

(** [Synchronize]: the fetch, the walk, then the loop over the fetched log;
    a panic in the walk ends the run before the loop. *)
Definition Synchronize (calls : list WalkCall)
  (fetched : option TransactionLog) (oldTransactionLog : TransactionLog)
  : list Effect * Outcome TransactionLog :=
  let tl : TransactionLog := default ∅ fetched in
  let '(posted, out) := Walk calls tl in
  match out with
  | Panicked => (posted, Panicked)
  | Returned _ =>
      let '(effs, out) := range_tl (map_to_list tl) oldTransactionLog in
      (posted ++ effs,
       match out with Returned _ => Returned tl | Panicked => Panicked end)
  end.

(** The calls of a walk that are for a non-directory, by path. *)
Definition files_of (calls : list WalkCall) : list string :=
  map wc_path (filter (fun c => wc_fi c = Some false) calls).

(** The call comes with a [FileInfo]: its [Lstat] succeeded. *)
Definition has_FileInfo (c : WalkCall) : Prop := wc_fi c ≠ None.

(** The path an effect is about. *)
Definition path_of (e : Effect) : string :=
  match e with
  | EGetFile path | ERemove path | EDeleteFile path | EPostFile path => path
  end.

(** What the loop of [Synchronize] needs of the logs: an entry in every
    entity of the fetched log, and in every entity of the prior log under
    a path of the fetched log. *)
Definition entries_to_read (tl oldTransactionLog : TransactionLog) : Prop :=
  ∀ k v, tl !! k = Some v →
    Entries v ≠ [] ∧
    ∀ oldv, oldTransactionLog !! k = Some oldv → Entries oldv ≠ [].

End client_walk.

Module walk_examples.
Import models client client_walk examples sync_examples.

(** A walk over a directory, two files in it and a sub-directory. *)
Definition calls_ok : list WalkCall :=
  [ {| wc_path := ""; wc_fi := Some true |};
    {| wc_path := "a.txt"; wc_fi := Some false |};
    {| wc_path := "c.txt"; wc_fi := Some false |};
    {| wc_path := "d"; wc_fi := Some true |} ].

(** A walk whose second entry cannot be [Lstat]ed. *)
Definition calls_broken : list WalkCall :=
  [ {| wc_path := "c.txt"; wc_fi := Some false |};
    {| wc_path := "gone"; wc_fi := None |};
    {| wc_path := "z.txt"; wc_fi := Some false |} ].

End walk_examples.

(* ================================================================== *)
(** * Properties *)

Import models protocol.

(* ------------------------------------------------------------------ *)
(** ** Bytes and the reader *)

Section Bytes.

Lemma to_nat_byte_of_int (n : nat) :
  Byte.to_nat (byte_of_int n) = n mod 256.
Proof.
  unfold byte_of_int.
  destruct (Byte.of_nat (n mod 256)) as [b|] eqn:E; simpl.
  - by apply Byte.to_of_nat.
  - apply Byte.of_nat_None_iff in E.
    pose proof (Nat.mod_upper_bound n 256). lia.
Qed.

Lemma to_nat_byte_of_int_small (n : nat) :
  n ≤ 255 → Byte.to_nat (byte_of_int n) = n.
Proof.
  intros H. rewrite to_nat_byte_of_int. apply Nat.mod_small. lia.
Qed.

Lemma byte_of_int_to_nat (b : byte) : byte_of_int (Byte.to_nat b) = b.
Proof.
  unfold byte_of_int. pose proof (Byte.to_nat_bounded b).
  rewrite Nat.mod_small by lia. by rewrite Byte.of_to_nat.
Qed.

End Bytes.

Section Reader.
Import file.

Lemma read_exact_spec (len : nat) (buf : list byte) :
  len ≠ 0 →
  read_exact len buf =
    if decide (len ≤ length buf) then Some (take len buf, drop len buf)
    else None.
Proof.
  intros Hlen. unfold read_exact, Read.
  rewrite length_take.
  case_decide as Hle.
  - rewrite Nat.min_l by done. rewrite Nat.eqb_refl. simpl.
    rewrite bool_decide_eq_false_2; [done|].
    intros [-> _]. simpl in Hle. lia.
  - rewrite Nat.min_r by lia.
    destruct (Nat.eqb_spec (length buf) len); [lia|done].
Qed.

Lemma read_exact_app (p rest : list byte) :
  p ≠ [] → read_exact (length p) (p ++ rest) = Some (p, rest).
Proof.
  intros Hp. rewrite read_exact_spec by (destruct p; simpl; [done|lia]).
  rewrite decide_True by (rewrite length_app; lia).
  by rewrite take_app_length, drop_app_length.
Qed.

Lemma read_exact_inv (len : nat) (buf p rest : list byte) :
  len ≠ 0 → read_exact len buf = Some (p, rest) →
  buf = p ++ rest ∧ length p = len.
Proof.
  intros Hlen. rewrite read_exact_spec by done.
  case_decide as Hle; [|done]. intros [= <- <-].
  split; [by rewrite take_drop | rewrite length_take; lia].
Qed.

(** The reading loop hands back every byte that is left. *)
Lemma read_data_all (fuel : nat) (buf data : list byte) :
  length buf < fuel → read_data fuel buf data = data ++ buf.
Proof.
  revert buf data. induction fuel as [|fuel IH]; intros buf data Hlt; [lia|].
  simpl. destruct buf as [|b buf].
  - simpl. done.
  - rewrite length_take.
    destruct (Nat.eqb_spec (length (b :: buf) `min` 256) 0) as [E|E].
    { simpl in E. lia. }
    rewrite IH.
    + rewrite <- (assoc_L (++)). by rewrite take_drop.
    + rewrite length_drop. simpl in *. lia.
Qed.

Lemma read_to_end_all (buf : list byte) : read_to_end buf = buf.
Proof. unfold read_to_end. by rewrite read_data_all by lia. Qed.

End Reader.

(* ------------------------------------------------------------------ *)
(** ** The envelope: owner table and authorisation scan *)

Section Envelope.
Import file envelope_format.

Lemma read_idSecrets_inv (count : nat) (buf : list byte)
  (acc idSecrets : list idSecret) (rest : list byte) :
  read_idSecrets count buf acc = Some (idSecrets, rest) →
  ∃ owners,
    idSecrets = acc ++ owners ∧ length owners = count ∧
    Forall wf_idSecret owners ∧
    buf = concat (map put_idSecret owners) ++ rest.
Proof.
  revert buf acc. induction count as [|count IH]; intros buf acc; simpl.
  - intros [= <- <-]. exists []. by rewrite app_nil_r.
  - destruct (read_exact 20 buf) as [[idSlice buf1]|] eqn:E1; [|done].
    simpl.
    destruct (read_exact sessionKeyLen buf1) as [[secretSlice buf2]|] eqn:E2;
      [|done].
    simpl. intros H. apply IH in H as (owners & -> & Hlen & Hwf & ->).
    apply read_exact_inv in E1 as [-> Hl1]; [|done].
    apply read_exact_inv in E2 as [-> Hl2]; [|done].
    exists ({| ID := idSlice; Secret_ := secretSlice |} :: owners).
    split_and!.
    + by rewrite <- (assoc_L (++)).
    + simpl. by rewrite Hlen.
    + constructor; [done|done].
    + unfold put_idSecret. simpl. by rewrite <- !(assoc_L (++)).
Qed.

Lemma read_idSecrets_put (owners acc : list idSecret) (rest : list byte) :
  Forall wf_idSecret owners →
  read_idSecrets (length owners)
    (concat (map put_idSecret owners) ++ rest) acc
  = Some (acc ++ owners, rest).
Proof.
  intros Hwf. revert acc.
  induction Hwf as [|[id secret] owners [Hid Hsec] _ IH]; intros acc.
  - simpl. by rewrite app_nil_r.
  - simpl in Hid, Hsec. cbn [length map concat read_idSecrets].
    unfold put_idSecret at 1. cbn [ID Secret_].
    rewrite <- !(assoc_L (++)).
    rewrite <- Hid at 1. rewrite read_exact_app by (by destruct id).
    cbn [mbind option_bind].
    rewrite <- Hsec at 1. rewrite read_exact_app by (by destruct secret).
    cbn [mbind option_bind].
    rewrite IH. by rewrite <- (assoc_L (++)).
Qed.

Lemma read_header_inv (buf : list byte) (idSecrets : list idSecret)
  (rest : list byte) :
  read_header buf = Some (idSecrets, rest) →
  Forall wf_idSecret idSecrets ∧ length idSecrets ≤ 255 ∧
  buf = envelope idSecrets rest.
Proof.
  unfold read_header.
  destruct (read_exact 1 buf) as [[ownerCount buf1]|] eqn:E; [|done].
  simpl. intros H.
  apply read_idSecrets_inv in H as (owners & -> & Hlen & Hwf & ->).
  apply read_exact_inv in E as [-> Hl]; [|done].
  destruct ownerCount as [|b [|]]; try done. simpl in Hlen.
  pose proof (Byte.to_nat_bounded b).
  split_and!; [done|simpl; lia|].
  unfold envelope. simpl. rewrite Hlen. by rewrite byte_of_int_to_nat.
Qed.

(** Parsing undoes writing, for an owner table that fits the count
    byte. *)
Lemma read_header_envelope (owners : list idSecret)
  (ciphertext : list byte) :
  Forall wf_idSecret owners → length owners ≤ 255 →
  read_header (envelope owners ciphertext) = Some (owners, ciphertext).
Proof.
  intros Hwf Hlen. unfold read_header, envelope.
  rewrite (read_exact_app [_]) by done. cbn [mbind option_bind hd].
  rewrite to_nat_byte_of_int_small by done.
  by rewrite read_idSecrets_put.
Qed.

Lemma check_ids_app (from : Identifier) (l1 l2 : list idSecret)
  (secret : list byte) :
  check_ids from (l1 ++ l2) secret =
    let '(found, secret') := check_ids from l1 secret in
    let '(found', secret'') := check_ids from l2 secret' in
    (found || found', secret'').
Proof.
  unfold check_ids. rewrite fold_left_app.
  generalize (fold_left
    (fun st pair => if decide (ID pair = from) then (true, Secret_ pair)
                    else st) l1 (false, secret)).
  intros [found secret']. revert found secret'.
  induction l2 as [|pair l2 IH] using rev_ind; intros found secret'.
  - simpl. by rewrite orb_false_r.
  - rewrite !fold_left_app. simpl.
    case_decide.
    + by rewrite orb_true_r.
    + apply IH.
Qed.

(** The scan ends on the last record whose id is [from]. *)
Lemma check_ids_last_match (from : Identifier) (idSecrets : list idSecret)
  (secret : list byte) :
  check_ids from idSecrets secret =
    match last_match from idSecrets with
    | Some w => (true, w)
    | None => (false, secret)
    end.
Proof.
  unfold last_match, first_match.
  induction idSecrets as [|pair l IH] using rev_ind; [done|].
  rewrite check_ids_app, IH, rev_app_distr. simpl.
  unfold check_ids at 1. simpl.
  destruct (decide (ID pair = from)) as [Heq|Hne].
  - rewrite bool_decide_eq_true_2 by done. simpl.
    by destruct (find _ (rev l)).
  - rewrite bool_decide_eq_false_2 by done.
    destruct (find _ (rev l)); simpl; by rewrite ?orb_false_r.
Qed.

Lemma first_match_None (from : Identifier) (owners : list idSecret) :
  first_match from owners = None ↔ from ∉ map ID owners.
Proof.
  unfold first_match. induction owners as [|pair l IH]; simpl.
  - split; [intros _; apply not_elem_of_nil | done].
  - rewrite not_elem_of_cons. case_bool_decide as Hd; simpl.
    + split; [done | intros [Hne _]; by destruct Hne].
    + rewrite IH. split; [intros ?; split; [congruence|done] | by intros [_ ?]].
Qed.

Lemma last_match_None (from : Identifier) (owners : list idSecret) :
  last_match from owners = None ↔ from ∉ map ID owners.
Proof.
  unfold last_match. rewrite first_match_None, map_rev.
  by rewrite !list_elem_of_In, <- in_rev.
Qed.

(** What "the last matching record" means, spelt out on the table. *)
Lemma last_match_Some (from : Identifier) (owners : list idSecret)
  (w : list byte) :
  last_match from owners = Some w ↔
  ∃ l1 pair l2,
    owners = l1 ++ pair :: l2 ∧ ID pair = from ∧ Secret_ pair = w ∧
    from ∉ map ID l2.
Proof.
  induction owners as [|q l IH] using rev_ind.
  - split; [done|]. intros (l1 & pair & l2 & H & _). by destruct l1.
  - unfold last_match, first_match in *. rewrite rev_app_distr. simpl.
    case_bool_decide as Hd; simpl.
    + split.
      * intros [= <-]. exists l, q, []. split_and!; try done.
        apply not_elem_of_nil.
      * intros (l1 & pair & l2 & H & Hid & Hw & Hnot).
        destruct l2 as [|x l2 _] using rev_ind.
        -- apply app_inj_tail in H as [_ ->]. by rewrite Hw.
        -- rewrite app_comm_cons, (assoc_L (++)) in H.
           apply app_inj_tail in H as [_ ->].
           rewrite map_app in Hnot. simpl in Hnot.
           exfalso. apply Hnot. rewrite elem_of_app. right.
           rewrite Hd. apply elem_of_cons. by left.
    + rewrite IH. split.
      * intros (l1 & pair & l2 & -> & Hid & Hw & Hnot).
        exists l1, pair, (l2 ++ [q]). split_and!; try done.
        -- by rewrite <- (assoc_L (++)).
        -- rewrite map_app, elem_of_app. intros [?|Hq]; [done|].
           simpl in Hq. apply list_elem_of_singleton in Hq. congruence.
      * intros (l1 & pair & l2 & H & Hid & Hw & Hnot).
        destruct l2 as [|x l2 _] using rev_ind.
        -- apply app_inj_tail in H as [_ ->]. done.
        -- rewrite app_comm_cons, (assoc_L (++)) in H.
           apply app_inj_tail in H as [-> ->].
           exists l1, pair, l2. split_and!; try done.
           rewrite map_app, elem_of_app in Hnot. tauto.
Qed.

Lemma find_app_split {A : Type} (f : A → bool) (l1 l2 : list A) :
  find f (l1 ++ l2) =
    match find f l1 with Some x => Some x | None => find f l2 end.
Proof.
  induction l1 as [|x l1 IH]; [done|]. simpl. by destruct (f x).
Qed.

(** Without duplicate ids the first and the last match are the same
    record. *)
Lemma first_last_match_NoDup (from : Identifier) (owners : list idSecret) :
  NoDup (map ID owners) → first_match from owners = last_match from owners.
Proof.
  induction owners as [|pair l IH]; [done|].
  simpl. intros Hnd. apply NoDup_cons in Hnd as [Hnot Hnd].
  specialize (IH Hnd). unfold last_match, first_match in *.
  simpl. rewrite find_app_split. simpl.
  case_bool_decide as Hd; simpl.
  - rewrite Hd in Hnot. apply first_match_None in Hnot.
    unfold first_match in Hnot. rewrite Hnot in IH.
    by destruct (find _ (rev l)).
  - rewrite IH. by destruct (find _ (rev l)).
Qed.

End Envelope.

(* ------------------------------------------------------------------ *)
(** ** The handlers *)

Section Handlers.
Import file envelope_format.

Implicit Types (r : Request) (s : Server) (owners : list idSecret).


Lemma GetFileHandler_parsed r s buf owners rest :
  Get s (Key (req_Header r)) = Some buf →
  read_header buf = Some (owners, rest) →
  GetFileHandler r s =
    (match last_match (From (req_Header r)) owners with
     | Some w => GetFile_reply w rest
     | None => ErrorResponse
     end, s).
Proof.
  intros Hget Hparse. unfold GetFileHandler. rewrite Hget, Hparse.
  rewrite check_ids_last_match.
  destruct (last_match _ owners); simpl; [|done].
  by rewrite read_to_end_all.
Qed.

Lemma PostFileHandler_parsed r s buf owners rest :
  Get s (Key (req_Header r)) = Some buf →
  read_header buf = Some (owners, rest) →
  PostFileHandler r s =
    let h := req_Header r in
    let tick := file.IncrementClock (Clock h) s in
    match last_match (From h) owners with
    | Some w =>
        (PostFile_reply tick.1 w,
         Post (Key h)
           ([byte_of_int (length owners + length (SharedWith h))]
              ++ concat (map put_idSecret owners)
              ++ concat (map put_shareWith (SharedWith h))
              ++ req_Data r) tick.2)
    | None => (ErrorResponse, tick.2)
    end.
Proof.
  intros Hget Hparse. unfold PostFileHandler. rewrite Hget. simpl.
  rewrite Hparse, check_ids_last_match.
  destruct (last_match _ owners); simpl; [|done].
  by rewrite <- !(assoc_L (++)).
Qed.

Lemma PostFileHandler_absent r s :
  Get s (Key (req_Header r)) = None →
  PostFileHandler r s =
    let h := req_Header r in
    let tick := file.IncrementClock (Clock h) s in
    ({| resp_Header := with_Clock Header0 tick.1;
        resp_Status := Success; resp_Data := [] |},
     Post (Key h)
       ([byte_of_int (1 + length (SharedWith h))]
          ++ From h ++ Secret h
          ++ concat (map put_shareWith (SharedWith h))
          ++ req_Data r) tick.2).
Proof.
  intros Hget. unfold PostFileHandler. rewrite Hget. simpl.
  by rewrite <- !(assoc_L (++)).
Qed.

Lemma concat_put_shareWith (shared : list SharedSecret) :
  concat (map put_shareWith shared)
  = concat (map put_idSecret (map idSecret_of shared)).
Proof. by rewrite map_map. Qed.

End Handlers.


Section HandlerClaims.
Import file envelope_format examples.

Implicit Types (r : Request) (s : Server) (owners : list idSecret).

(** *** C4: which wrapped key the authorisation scan yields *)

(** C4, as stated, fails: with the owner table [(A, secA); (A, secA')] the
    first record whose id is the requester's carries [secA], while
    [GetFile] answers with [secA'], the wrapped key of the second one. *)
Lemma GetFile_first_match_counterexample :
  first_match idA [ownerA; ownerA'] = Some secA ∧
  (GetFileHandler (request GetFileMethod idA 0 [] [] [])
     (server_with 0 (envelope [ownerA; ownerA'] cipher0))).1
  = GetFile_reply secA' cipher0 ∧
  secA' ≠ secA.
Proof.
  split_and!.
  - vm_compute. reflexivity.
  - vm_compute. reflexivity.
  - vm_compute. discriminate.
Qed.

(** C4 (amended): for every stored envelope whose owner table contains one
    or more records with id equal to the requester's [from], the scan of
    [GetFile] yields the wrapped key of the LAST matching record: the reply
    is [Success] with that record's wrapped key as secret and the
    ciphertext as data.  (Without duplicate ids this is also the first
    match, see [first_last_match_NoDup].) *)
Theorem GetFile_yields_last_match r s l1 pair l2 ciphertext :
  Forall wf_idSecret (l1 ++ pair :: l2) →
  length (l1 ++ pair :: l2) ≤ 255 →
  Get s (Key (req_Header r)) = Some (envelope (l1 ++ pair :: l2) ciphertext) →
  ID pair = From (req_Header r) →
  From (req_Header r) ∉ map ID l2 →
  GetFileHandler r s = (GetFile_reply (Secret_ pair) ciphertext, s).
Proof.
  intros Hwf Hlen Hget Hid Hnot.
  rewrite (GetFileHandler_parsed r s _ _ _ Hget
             (read_header_envelope _ _ Hwf Hlen)).
  assert (last_match (From (req_Header r)) (l1 ++ pair :: l2)
          = Some (Secret_ pair)) as ->; [|done].
  apply last_match_Some. by exists l1, pair, l2.
Qed.

Lemma GetFile_yields_last_match_witness :
  GetFileHandler (request GetFileMethod idA 0 [] [] [])
    (server_with 0 (envelope [ownerB; ownerA; ownerA'; ownerB] cipher0))
  = (GetFile_reply secA' cipher0,
     server_with 0 (envelope [ownerB; ownerA; ownerA'; ownerB] cipher0)).
Proof.
  apply (GetFile_yields_last_match
           (request GetFileMethod idA 0 [] [] [])
           (server_with 0 (envelope [ownerB; ownerA; ownerA'; ownerB] cipher0))
           [ownerB; ownerA] ownerA' [ownerB] cipher0).
  - repeat constructor.
  - simpl. lia.
  - vm_compute. reflexivity.
  - reflexivity.
  - vm_compute. intros H. repeat (inversion H as [|? ? ? H']; clear H; rename H' into H; subst).
Defined.

(** *** C6: a post by a non-owner *)

(** C6: for every [PostFile] request on an existing, well-formed envelope
    whose owner table does not contain the requester's [from], the handler
    replies [Error] and the stored blobs are what they were: nothing is
    written. *)
Theorem PostFile_non_owner_rejected r s owners ciphertext :
  Forall wf_idSecret owners →
  length owners ≤ 255 →
  Get s (Key (req_Header r)) = Some (envelope owners ciphertext) →
  From (req_Header r) ∉ map ID owners →
  resp_Status (PostFileHandler r s).1 = Error ∧
  blobs (PostFileHandler r s).2 = blobs s.
Proof.
  intros Hwf Hlen Hget Hnot.
  rewrite (PostFileHandler_parsed r s _ _ _ Hget
             (read_header_envelope _ _ Hwf Hlen)).
  apply last_match_None in Hnot. cbv zeta. by rewrite Hnot.
Qed.

Lemma PostFile_non_owner_rejected_witness :
  resp_Status
    (PostFileHandler (request PostFileMethod idC 3 secB [shareB] cipher1)
       (server_with 5 (envelope [ownerA] cipher0))).1 = Error ∧
  blobs
    (PostFileHandler (request PostFileMethod idC 3 secB [shareB] cipher1)
       (server_with 5 (envelope [ownerA] cipher0))).2
  = blobs (server_with 5 (envelope [ownerA] cipher0)).
Proof.
  apply (PostFile_non_owner_rejected
           (request PostFileMethod idC 3 secB [shareB] cipher1)
           (server_with 5 (envelope [ownerA] cipher0)) [ownerA] cipher0).
  - repeat constructor.
  - simpl. lia.
  - vm_compute. reflexivity.
  - vm_compute. intros H. repeat (inversion H as [|? ? ? H']; clear H; rename H' into H; subst).
Defined.

(** *** C8: the zero-owner envelope *)

(** C8: a stored envelope whose owner-count byte is 0 is parsed
    successfully, into an empty owner table and the remaining bytes, and
    [GetFile] replies [Error] to every requester, whatever its [from]. *)
Theorem GetFile_zero_owners r s rest :
  Get s (Key (req_Header r)) = Some (x00 :: rest) →
  read_header (x00 :: rest) = Some ([], rest) ∧
  GetFileHandler r s = (ErrorResponse, s).
Proof.
  intros Hget.
  assert (read_header (x00 :: rest) = Some ([], rest)) as Hparse.
  { unfold read_header.
    change (read_exact 1 (x00 :: rest))
      with (read_exact (length [x00]) ([x00] ++ rest)).
    by rewrite read_exact_app. }
  split; [done|].
  by rewrite (GetFileHandler_parsed r s _ _ _ Hget Hparse).
Qed.

Lemma GetFile_zero_owners_witness :
  read_header (x00 :: cipher0) = Some ([], cipher0) ∧
  GetFileHandler (request GetFileMethod idA 0 [] [] [])
    (server_with 0 (x00 :: cipher0))
  = (ErrorResponse, server_with 0 (x00 :: cipher0)).
Proof.
  apply (GetFile_zero_owners (request GetFileMethod idA 0 [] [] [])
           (server_with 0 (x00 :: cipher0)) cipher0).
  vm_compute. reflexivity.
Defined.

(** *** C10: the secret a successful post over an envelope replies with *)

Lemma PostFileHandler_unparsed r s buf :
  Get s (Key (req_Header r)) = Some buf →
  read_header buf = None →
  (PostFileHandler r s).1 = ErrorResponse.
Proof.
  intros Hget Hparse. unfold PostFileHandler. rewrite Hget. simpl.
  by rewrite Hparse.
Qed.

(** C10: whenever [PostFile] over an existing blob replies [Success], the
    blob is a well-formed envelope, the one the handler has parsed into
    its prior owner table (at most 255 records, so that the count byte is
    their number), and the secret of the reply is the wrapped key stored in
    that table for the requester's [from]: that of the last record with
    this id when there are several. *)
Theorem PostFile_reply_secret r s buf :
  Get s (Key (req_Header r)) = Some buf →
  resp_Status (PostFileHandler r s).1 = Success →
  ∃ l1 pair l2 ciphertext,
    read_header buf = Some (l1 ++ pair :: l2, ciphertext) ∧
    buf = envelope (l1 ++ pair :: l2) ciphertext ∧
    Forall wf_idSecret (l1 ++ pair :: l2) ∧
    length (l1 ++ pair :: l2) ≤ 255 ∧
    ID pair = From (req_Header r) ∧
    (From (req_Header r) ∉ map ID l2) ∧
    Secret (resp_Header (PostFileHandler r s).1) = Secret_ pair.
Proof.
  intros Hget.
  destruct (read_header buf) as [[owners rest]|] eqn:Hparse.
  - rewrite (PostFileHandler_parsed r s _ _ _ Hget Hparse). cbv zeta.
    destruct (last_match (From (req_Header r)) owners) as [w|] eqn:Hlast;
      [|done].
    intros _. apply last_match_Some in Hlast
      as (l1 & pair & l2 & -> & Hid & <- & Hnot).
    apply read_header_inv in Hparse as (Hwf & Hlen & Hbuf).
    exists l1, pair, l2, rest. by split_and!.
  - by rewrite (PostFileHandler_unparsed r s _ Hget Hparse).
Qed.

Lemma PostFile_reply_secret_witness :
  ∃ l1 pair l2 ciphertext,
    read_header (envelope [ownerA; ownerB; ownerA'] cipher0)
      = Some (l1 ++ pair :: l2, ciphertext) ∧
    envelope [ownerA; ownerB; ownerA'] cipher0
      = envelope (l1 ++ pair :: l2) ciphertext ∧
    Forall wf_idSecret (l1 ++ pair :: l2) ∧
    length (l1 ++ pair :: l2) ≤ 255 ∧
    ID pair = idA ∧
    (idA ∉ map ID l2) ∧
    Secret (resp_Header
      (PostFileHandler (request PostFileMethod idA 3 secA [] cipher1)
         (server_with 5 (envelope [ownerA; ownerB; ownerA'] cipher0))).1)
    = Secret_ pair.
Proof.
  apply (PostFile_reply_secret
           (request PostFileMethod idA 3 secA [] cipher1)
           (server_with 5 (envelope [ownerA; ownerB; ownerA'] cipher0))
           (envelope [ownerA; ownerB; ownerA'] cipher0)).
  - vm_compute. reflexivity.
  - vm_compute. reflexivity.
Defined.

(** An owner's post over a well-formed envelope does succeed, so the
    statement above is not an empty one. *)
Lemma PostFile_owner_succeeds r s owners ciphertext w :
  Forall wf_idSecret owners →
  length owners ≤ 255 →
  Get s (Key (req_Header r)) = Some (envelope owners ciphertext) →
  last_match (From (req_Header r)) owners = Some w →
  (PostFileHandler r s).1
  = PostFile_reply (file.IncrementClock (Clock (req_Header r)) s).1 w.
Proof.
  intros Hwf Hlen Hget Hlast.
  rewrite (PostFileHandler_parsed r s _ _ _ Hget
             (read_header_envelope _ _ Hwf Hlen)).
  cbv zeta. by rewrite Hlast.
Qed.

(** *** C3: the logical clock in the replies *)

(** C3, as stated, fails three times over, at a node whose clock is 5 and
    a request with clock 9, where the claim has 10 for the header and the
    node.  [GetFile] by the owner is answered [Success] with clock 0 in the
    header and leaves the node's clock at 5.  [PostFile] by a stranger is
    answered [Error] with clock 0 in the header.  [DeleteFile] on a blob
    that does not parse is answered [Error] with clock 0 in the header and
    leaves the node's clock at 5. *)
Lemma handlers_clock_counterexample :
  (resp_Status
     (run HGetFile (request GetFileMethod idA 9 [] [] [])
        (server_with 5 (envelope [ownerA] cipher0))).1 = Success ∧
   Clock (resp_Header
     (run HGetFile (request GetFileMethod idA 9 [] [] [])
        (server_with 5 (envelope [ownerA] cipher0))).1) = 0%Z ∧
   clock
     (run HGetFile (request GetFileMethod idA 9 [] [] [])
        (server_with 5 (envelope [ownerA] cipher0))).2 = 5%Z) ∧
  (resp_Status
     (run HPostFile (request PostFileMethod idC 9 secB [] cipher1)
        (server_with 5 (envelope [ownerA] cipher0))).1 = Error ∧
   Clock (resp_Header
     (run HPostFile (request PostFileMethod idC 9 secB [] cipher1)
        (server_with 5 (envelope [ownerA] cipher0))).1) = 0%Z) ∧
  (resp_Status
     (run HDeleteFile (request DeleteFileMethod idA 9 [] [] [])
        (server_with 5 (x02 :: put_idSecret ownerA))).1 = Error ∧
   Clock (resp_Header
     (run HDeleteFile (request DeleteFileMethod idA 9 [] [] [])
        (server_with 5 (x02 :: put_idSecret ownerA))).1) = 0%Z ∧
   clock
     (run HDeleteFile (request DeleteFileMethod idA 9 [] [] [])
        (server_with 5 (x02 :: put_idSecret ownerA))).2 = 5%Z) ∧
  (Z.max 5 9 + 1 = 10)%Z.
Proof. vm_compute. repeat split. Qed.

(** When no blob that parses is stored under the key, [DeleteFile] replies
    [Error] and leaves the node as it was, its clock included. *)
Lemma DeleteFile_clock_unparsed r s :
  (∀ buf, Get s (Key (req_Header r)) = Some buf → read_header buf = None) →
  DeleteFileHandler r s = (ErrorResponse, s).
Proof.
  intros H. unfold DeleteFileHandler.
  destruct (Get s _) as [buf|]; [|done]. by rewrite (H buf eq_refl).
Qed.

(** C3 (amended): [PostFile], [GetPublicKey] and [PostPublicKey] update the
    logical clock on every request, and [DeleteFile] on every request
    whose stored blob parses as an envelope; the node's clock is then
    [max(server_clock, request.clock) + 1], and every [Success] reply of
    these four handlers carries that value in its header.  The value is
    one the 64-bit clock can hold. *)
Theorem handlers_update_clock hd r s :
  hd ≠ HGetFile →
  (0 ≤ Z.max (clock s) (Clock (req_Header r)) + 1 < 2 ^ 64)%Z →
  (resp_Status (run hd r s).1 = Success →
   Clock (resp_Header (run hd r s).1)
   = (Z.max (clock s) (Clock (req_Header r)) + 1)%Z) ∧
  ((hd = HDeleteFile →
    ∃ buf owners rest,
      Get s (Key (req_Header r)) = Some buf ∧
      read_header buf = Some (owners, rest)) →
   clock (run hd r s).2 = (Z.max (clock s) (Clock (req_Header r)) + 1)%Z).
Proof.
  intros Hhd Hfit.
  assert (((Z.max (clock s) (Clock (req_Header r)) + 1) mod 2 ^ 64
           = Z.max (clock s) (Clock (req_Header r)) + 1)%Z) as Hmod
    by (by apply Z.mod_small).
  destruct hd; [done| | | |]; simpl;
    unfold file.IncrementClock, models.IncrementClock.
  - unfold PostFileHandler, file.IncrementClock, models.IncrementClock.
    simpl. rewrite Hmod.
    destruct (Get s _) as [buf|]; [|done].
    destruct (read_header buf) as [[owners rest]|]; [|done].
    by destruct (check_ids _ owners []) as [[] secret].
  - unfold DeleteFileHandler, file.IncrementClock, models.IncrementClock.
    destruct (Get s (Key (req_Header r))) as [buf|] eqn:Hget.
    + destruct (read_header buf) as [[owners rest]|] eqn:Hparse.
      * simpl. rewrite Hmod.
        by destruct (check_ids _ owners []) as [[] secret].
      * split; [done|]. intros H.
        destruct (H eq_refl) as (buf' & ? & ? & Hb & Hp).
        injection Hb as <-. congruence.
    + split; [done|]. intros H.
      by destruct (H eq_refl) as (? & ? & ? & ? & ?).
  - unfold GetPublicKeyHandler, file.IncrementClock, models.IncrementClock.
    simpl. rewrite Hmod. unfold Get. simpl.
    by destruct (blobs s !! _).
  - unfold PostPublicKeyHandler, file.IncrementClock, models.IncrementClock.
    simpl. by rewrite Hmod.
Qed.

Lemma handlers_update_clock_witness :
  (resp_Status
     (run HPostFile (request PostFileMethod idC 9 secB [] cipher1)
        (server_with 5 (envelope [ownerA] cipher0))).1 = Success →
   Clock (resp_Header
     (run HPostFile (request PostFileMethod idC 9 secB [] cipher1)
        (server_with 5 (envelope [ownerA] cipher0))).1)
   = (Z.max 5 9 + 1)%Z) ∧
  ((HPostFile = HDeleteFile →
    ∃ buf owners rest,
      Get (server_with 5 (envelope [ownerA] cipher0)) key0 = Some buf ∧
      read_header buf = Some (owners, rest)) →
   clock
     (run HPostFile (request PostFileMethod idC 9 secB [] cipher1)
        (server_with 5 (envelope [ownerA] cipher0))).2 = (Z.max 5 9 + 1)%Z).
Proof.
  apply (handlers_update_clock HPostFile
           (request PostFileMethod idC 9 secB [] cipher1)
           (server_with 5 (envelope [ownerA] cipher0))).
  - discriminate.
  - vm_compute. split; [discriminate | reflexivity].
Defined.

(** The four handlers at work on one node: the owner's [DeleteFile] is
    answered [Success] with 10 in the header, and a stranger's [PostFile],
    answered [Error], still moves the node's clock to 10.  At the last
    value of the counter the sum wraps: a request with clock [2^64 - 1]
    leaves the node at 0. *)
Lemma handlers_update_clock_examples :
  Clock (resp_Header
    (run HDeleteFile (request DeleteFileMethod idA 9 [] [] [])
       (server_with 5 (envelope [ownerA] cipher0))).1) = 10%Z ∧
  clock
    (run HPostFile (request PostFileMethod idC 9 secB [] cipher1)
       (server_with 5 (envelope [ownerA] cipher0))).2 = 10%Z ∧
  clock
    (run HPostPublicKey
       (request PostPublicKeyMethod idA (2 ^ 64 - 1) [] [] cipher1)
       (empty_server 5)).2 = 0%Z.
Proof. vm_compute. repeat split. Qed.

(** *** C5: the envelope written for a key that has none *)

(** C5, as stated, fails once the count no longer fits its byte: a first
    post that shares with 255 users stores 0 as owner count, not
    [1 + 255]. *)
Lemma PostFile_new_envelope_count_counterexample :
  blobs
    (PostFileHandler
       (request PostFileMethod idA 0 secA (replicate 255 shareB) cipher0)
       (empty_server 0)).2 !! key0
  = Some (x00 :: idA ++ secA
            ++ concat (map put_shareWith (replicate 255 shareB))
            ++ cipher0) ∧
  Byte.to_nat x00 ≠ 1 + length (replicate 255 shareB).
Proof.
  split.
  - rewrite PostFileHandler_absent by done.
    cbv zeta. unfold Post, request. cbn [snd blobs req_Header Key].
    rewrite lookup_insert_eq. f_equal.
  - rewrite length_replicate. vm_compute. lia.
Qed.

(** C5 (amended): for every [PostFile] request with at most 254
    shared-with records on a key with no existing envelope, the handler
    replies [Success] and stores, under the key, exactly the envelope whose
    owner-count byte is [1 + |shared_with|], whose owner table is the
    record [(from, secret)] followed by the shared-with records in order,
    and whose ciphertext is the request data.  Nothing else in the store
    changes. *)
Theorem PostFile_new_envelope r s :
  Get s (Key (req_Header r)) = None →
  length (SharedWith (req_Header r)) ≤ 254 →
  ∃ count,
    Byte.to_nat count = 1 + length (SharedWith (req_Header r)) ∧
    resp_Status (PostFileHandler r s).1 = Success ∧
    blobs (PostFileHandler r s).2
    = <[Key (req_Header r) :=
          count :: (From (req_Header r) ++ Secret (req_Header r))
            ++ concat (map put_shareWith (SharedWith (req_Header r)))
            ++ req_Data r]> (blobs s).
Proof.
  intros Hget Hlen.
  exists (byte_of_int (1 + length (SharedWith (req_Header r)))).
  split; [apply to_nat_byte_of_int_small; lia|].
  rewrite (PostFileHandler_absent r s Hget). cbv zeta.
  split; [done|]. unfold Post. cbn [snd blobs file.IncrementClock].
  by rewrite <- !(assoc_L (++)).
Qed.

Lemma PostFile_new_envelope_witness :
  ∃ count,
    Byte.to_nat count = 1 + 1 ∧
    resp_Status
      (PostFileHandler (request PostFileMethod idA 0 secA [shareB] cipher0)
         (empty_server 4)).1 = Success ∧
    blobs
      (PostFileHandler (request PostFileMethod idA 0 secA [shareB] cipher0)
         (empty_server 4)).2
    = <[key0 := count :: (idA ++ secA)
                  ++ concat (map put_shareWith [shareB]) ++ cipher0]> ∅.
Proof.
  apply (PostFile_new_envelope
           (request PostFileMethod idA 0 secA [shareB] cipher0)
           (empty_server 4)).
  - reflexivity.
  - simpl. lia.
Defined.

(** The same envelope in the vocabulary of the format: it is the one the
    parser reads back as that owner table, provided the records have the
    sizes of the format. *)
Lemma PostFile_new_envelope_format r s :
  Get s (Key (req_Header r)) = None →
  blobs (PostFileHandler r s).2 !! Key (req_Header r)
  = Some (envelope
            ({| ID := From (req_Header r); Secret_ := Secret (req_Header r) |}
               :: map idSecret_of (SharedWith (req_Header r)))
            (req_Data r)).
Proof.
  intros Hget. rewrite (PostFileHandler_absent r s Hget). cbv zeta.
  unfold Post. cbn [snd blobs]. rewrite lookup_insert_eq. f_equal.
  unfold envelope. cbn [length map concat]. rewrite length_map.
  rewrite concat_put_shareWith. unfold put_idSecret at 2. cbn [ID Secret_].
  by rewrite <- !(assoc_L (++)).
Qed.

(** *** C7: the owner count written by an update *)

(** When the sum fits the byte, an owner's update stores the envelope of
    the old owner table followed by the shared-with records. *)
Lemma PostFile_update_envelope r s owners ciphertext w :
  Forall wf_idSecret owners →
  length owners ≤ 255 →
  Get s (Key (req_Header r)) = Some (envelope owners ciphertext) →
  last_match (From (req_Header r)) owners = Some w →
  blobs (PostFileHandler r s).2 !! Key (req_Header r)
  = Some (envelope (owners ++ map idSecret_of (SharedWith (req_Header r)))
            (req_Data r)).
Proof.
  intros Hwf Hlen Hget Hlast.
  rewrite (PostFileHandler_parsed r s _ _ _ Hget
             (read_header_envelope _ _ Hwf Hlen)).
  cbv zeta. rewrite Hlast. unfold Post. cbn [snd blobs].
  rewrite lookup_insert_eq. f_equal.
  unfold envelope. rewrite length_app, length_map, map_app, concat_app.
  rewrite concat_put_shareWith. by rewrite <- !(assoc_L (++)).
Qed.

(** C7 at its failing input: the owner of a one-owner envelope posts an
    update that shares with 255 users.  The handler replies [Success] and
    stores 256 owner records under the count byte 0, where the claim has
    the byte equal to the number of records and that number at most 255.
    The next [GetFile] of the owner reads an empty owner table out of the
    blob and is refused. *)
Lemma PostFile_update_count_overflow :
  resp_Status
    (PostFileHandler
       (request PostFileMethod idA 0 secA (replicate 255 shareB) cipher1)
       (server_with 5 (envelope [ownerA] cipher0))).1 = Success ∧
  blobs
    (PostFileHandler
       (request PostFileMethod idA 0 secA (replicate 255 shareB) cipher1)
       (server_with 5 (envelope [ownerA] cipher0))).2 !! key0
  = Some (x00 :: concat (map put_idSecret
                   ([ownerA] ++ map idSecret_of (replicate 255 shareB)))
            ++ cipher1) ∧
  length ([ownerA] ++ map idSecret_of (replicate 255 shareB)) = 256 ∧
  (GetFileHandler (request GetFileMethod idA 0 [] [] [])
     (PostFileHandler
        (request PostFileMethod idA 0 secA (replicate 255 shareB) cipher1)
        (server_with 5 (envelope [ownerA] cipher0))).2).1 = ErrorResponse.
Proof.
  assert (Forall wf_idSecret [ownerA]) as Hwf by repeat constructor.
  assert (length [ownerA] ≤ 255) as Hlen by (simpl; lia).
  assert (Get (server_with 5 (envelope [ownerA] cipher0)) key0
          = Some (envelope [ownerA] cipher0)) as Hget
    by apply lookup_singleton_eq.
  assert (last_match idA [ownerA] = Some secA) as Hlast by done.
  pose proof (PostFile_update_envelope
    (request PostFileMethod idA 0 secA (replicate 255 shareB) cipher1)
    _ _ _ _ Hwf Hlen Hget Hlast) as Hblob.
  cbn [req_Header request Key SharedWith req_Data] in Hblob.
  assert (envelope ([ownerA] ++ map idSecret_of (replicate 255 shareB)) cipher1
          = x00 :: concat (map put_idSecret
                     ([ownerA] ++ map idSecret_of (replicate 255 shareB)))
              ++ cipher1) as Henv.
  { unfold envelope. rewrite length_app, length_map, length_replicate. done. }
  rewrite Henv in Hblob.
  split_and!.
  - by rewrite (PostFile_owner_succeeds
        (request PostFileMethod idA 0 secA (replicate 255 shareB) cipher1)
        _ _ _ _ Hwf Hlen Hget Hlast).
  - done.
  - by rewrite length_app, length_map, length_replicate.
  - assert (read_header
              (x00 :: concat (map put_idSecret
                         ([ownerA] ++ map idSecret_of (replicate 255 shareB)))
                 ++ cipher1)
            = Some ([], concat (map put_idSecret
                         ([ownerA] ++ map idSecret_of (replicate 255 shareB)))
                       ++ cipher1)) as Hparse.
    { apply (read_header_envelope [] _); [constructor | simpl; lia]. }
    by rewrite (GetFileHandler_parsed
                  (request GetFileMethod idA 0 [] [] []) _ _ _ _ Hblob Hparse).
Qed.

End HandlerClaims.


(* ------------------------------------------------------------------ *)
(** ** Synchronisation *)

Section Sync.
Import client sync_vocabulary.

Implicit Types (e a : TransactionEntry) (l : list TransactionEntry).

Lemma pick_same e : pick e e = e.
Proof. unfold pick. by destruct (Timestamp e >=? Timestamp e)%Z. Qed.

Lemma fold_pick_last_max pre a l :
  is_last_max pre a → is_last_max (pre ++ l) (fold_left pick l a).
Proof.
  revert pre a. induction l as [|x l IH]; intros pre a Hmax; simpl.
  - by rewrite app_nil_r.
  - replace (pre ++ x :: l) with ((pre ++ [x]) ++ l)
      by (by rewrite <- (assoc_L (++))).
    apply IH. destruct Hmax as (l1 & l2 & -> & Hle & Hlt).
    unfold pick. destruct (Z.geb_spec (Timestamp x) (Timestamp a)) as [Hge|Hl].
    + exists (l1 ++ a :: l2), []. split_and!.
      * done.
      * intros y [Hy|Hy]%elem_of_app; [specialize (Hle y Hy); lia|].
        apply elem_of_cons in Hy as [->|Hy]; [lia|].
        specialize (Hlt y Hy). lia.
      * intros y Hy. by apply not_elem_of_nil in Hy.
    + exists l1, (l2 ++ [x]). split_and!.
      * by rewrite <- (assoc_L (++)).
      * done.
      * intros y [Hy|Hy]%elem_of_app; [by apply Hlt|].
        apply list_elem_of_singleton in Hy as ->. lia.
Qed.

(** The selection loop returns the entry of maximum timestamp, the latest
    one on ties, whenever there is an entry at all. *)
Lemma lastEntryOf_last_max l :
  l ≠ [] → ∃ e, lastEntryOf l = Some e ∧ is_last_max l e.
Proof.
  destruct l as [|e0 l]; [done|]. intros _.
  eexists. split; [done|]. simpl. rewrite pick_same.
  apply (fold_pick_last_max [e0] e0 l).
  exists [], []. split_and!; [done| |]; intros y Hy;
    by apply not_elem_of_nil in Hy.
Qed.

Lemma fold_pick_fixed l e :
  (∀ x, x ∈ l → (Timestamp x < Timestamp e)%Z) → fold_left pick l e = e.
Proof.
  induction l as [|x l IH]; intros Hlt; [done|]. simpl.
  unfold pick at 2.
  destruct (Z.geb_spec (Timestamp x) (Timestamp e)) as [Hge|_].
  - assert (x ∈ x :: l) as Hx by (apply elem_of_cons; by left).
    specialize (Hlt x Hx). lia.
  - apply IH. intros y Hy. apply Hlt. apply elem_of_cons. by right.
Qed.

Lemma fold_pick_bound l a (T : Z) :
  (Timestamp a ≤ T)%Z → (∀ x, x ∈ l → (Timestamp x ≤ T)%Z) →
  (Timestamp (fold_left pick l a) ≤ T)%Z.
Proof.
  revert a. induction l as [|x l IH]; intros a Ha Hl; [done|]. simpl.
  apply IH.
  - unfold pick. destruct (Timestamp x >=? Timestamp a)%Z; [|done].
    apply Hl. apply elem_of_cons. by left.
  - intros y Hy. apply Hl. apply elem_of_cons. by right.
Qed.

(** Conversely, the entry so described is the one the loop returns; in
    particular there is only one such entry. *)
Lemma last_max_lastEntryOf l e :
  is_last_max l e → lastEntryOf l = Some e.
Proof.
  intros (l1 & l2 & -> & Hle & Hlt).
  assert (∀ b, (Timestamp b ≤ Timestamp e)%Z → pick b e = e) as Hpick.
  { intros b Hb. unfold pick.
    destruct (Z.geb_spec (Timestamp e) (Timestamp b)); [done|lia]. }
  destruct l1 as [|e0 l1]; simpl.
  - rewrite pick_same. by rewrite fold_pick_fixed.
  - rewrite pick_same, fold_left_app. simpl.
    rewrite Hpick; [by rewrite fold_pick_fixed|].
    apply fold_pick_bound.
    + apply Hle. apply elem_of_cons. by left.
    + intros y Hy. apply Hle. apply elem_of_cons. by right.
Qed.

Lemma last_max_nonempty l e : is_last_max l e → l ≠ [].
Proof. intros (l1 & l2 & -> & _). by destruct l1. Qed.

Lemma lastEntryOf_is_last_max l e :
  lastEntryOf l = Some e → is_last_max l e.
Proof.
  intros H. destruct (lastEntryOf_last_max l) as (e' & He' & Hmax).
  - by destruct l.
  - congruence.
Qed.

End Sync.


Section SyncClaims.
Import client sync_vocabulary examples sync_examples.

Implicit Types (k : string) (v oldv : TransactionEntity)
  (old tl : TransactionLog).

(** *** The loop body on a path known to both logs *)

(** One round of the loop body, at entity [v] of the fetched log under a
    path [k] that the prior log has too, at [oldv]: the two selections and
    the five outcomes. *)
Lemma reconcile_known_path k v oldv old remote_last local_last :
  old !! k = Some oldv →
  is_last_max (Entries v) remote_last →
  is_last_max (Entries oldv) local_last →
  lastEntryOf (Entries v) = Some remote_last ∧
  lastEntryOf (Entries oldv) = Some local_last ∧
  ((Timestamp local_last < Timestamp remote_last)%Z →
   reconcile k v old
   = Some [if decide (Operation_ remote_last = DeleteOperation)
           then ERemove k else EGetFile k]) ∧
  (Timestamp local_last = Timestamp remote_last →
   reconcile k v old = Some []) ∧
  ((Timestamp local_last > Timestamp remote_last)%Z →
   reconcile k v old
   = Some [if decide (Operation_ local_last = DeleteOperation)
           then EDeleteFile k else EPostFile k]).
Proof.
  intros Hold Hremote%last_max_lastEntryOf Hlocal%last_max_lastEntryOf.
  split; [done|]. split; [done|].
  unfold reconcile. rewrite Hremote, Hold. simpl. rewrite Hlocal. simpl.
  split_and!.
  - intros Hlt. apply Z.ltb_lt in Hlt as ->. by case_decide.
  - intros ->. rewrite Z.ltb_irrefl, Z.eqb_refl. done.
  - intros Hgt.
    destruct (Z.ltb_spec (Timestamp local_last) (Timestamp remote_last));
      [lia|].
    destruct (Z.eqb_spec (Timestamp local_last) (Timestamp remote_last));
      [lia|].
    by case_decide.
Qed.


(** How the loop body sits in [Synchronize]: when the run returns, its
    effects are the posts of the walk followed by what [reconcile] gave for
    each entity of the fetched log, in the order the map was ranged over,
    and the log it returns is the fetched one. *)
Lemma range_tl_returned kvs old effs :
  range_tl kvs old = (effs, Returned tt) →
  ∃ per,
    Forall2 (fun kv e => reconcile kv.1 kv.2 old = Some e) kvs per ∧
    effs = concat per.
Proof.
  revert effs. induction kvs as [|[k v] kvs IH]; intros effs; simpl.
  - intros [= <-]. exists []. by split; [constructor|].
  - destruct (reconcile k v old) as [e|] eqn:E; [|done].
    destruct (range_tl kvs old) as [effs' out]. intros [= <- ->].
    destruct (IH effs' eq_refl) as (per & Hper & ->).
    exists (e :: per). split; [by constructor|done].
Qed.

Lemma Synchronize_returned localFiles fetched old effs tl' :
  Synchronize localFiles fetched old = (effs, Returned tl') →
  tl' = default ∅ fetched ∧
  ∃ per,
    Forall2 (fun kv e => reconcile kv.1 kv.2 old = Some e)
      (map_to_list (default ∅ fetched)) per ∧
    effs = walk localFiles (default ∅ fetched) ++ concat per.
Proof.
  unfold Synchronize.
  destruct (range_tl _ old) as [effs0 [[]|]] eqn:E; [|done].
  intros [= <- <-]. split; [done|].
  apply range_tl_returned in E as (per & Hper & ->). by exists per.
Qed.

(** *** C9: the entries read at index 0 *)

(** The loop body panics exactly when the entity at hand has no entry, or
    the prior log has the path with no entry. *)
Lemma reconcile_panics k v old :
  reconcile k v old = None ↔
  Entries v = [] ∨ ∃ oldv, old !! k = Some oldv ∧ Entries oldv = [].
Proof.
  unfold reconcile. destruct (Entries v) as [|e0 l] eqn:Ev; simpl.
  - split; [by left|done].
  - destruct (old !! k) as [oldv|]; simpl.
    + destruct (Entries oldv) as [|o0 lo] eqn:Eo; simpl.
      * split; [intros _; right; by exists oldv | done].
      * split.
        -- repeat (case_match; try done).
        -- intros [?|(oldv' & [= <-] & ?)]; [done|congruence].
    + split; [done|]. by intros [?|(oldv' & ? & ?)].
Qed.

Lemma range_tl_returns kvs old :
  (∃ effs, range_tl kvs old = (effs, Returned tt)) ↔
  ∀ k v, (k, v) ∈ kvs → reconcile k v old ≠ None.
Proof.
  induction kvs as [|[k v] kvs IH]; simpl.
  - split; [intros _ k v Hin; by apply not_elem_of_nil in Hin | by eexists].
  - split.
    + intros [effs H] k' v' Hin.
      destruct (reconcile k v old) as [e|] eqn:E; [|done].
      destruct (range_tl kvs old) as [effs' [[]|]] eqn:E'; [|done].
      apply elem_of_cons in Hin as [[= -> ->]|Hin]; [by rewrite E|].
      apply IH; [by eexists|done].
    + intros H.
      destruct (reconcile k v old) as [e|] eqn:E.
      * destruct IH as [_ [effs' IH]].
        { intros k' v' Hin. apply H. apply elem_of_cons. by right. }
        rewrite IH. by eexists.
      * exfalso. apply (H k v); [apply elem_of_cons; by left | done].
Qed.

(** Whether the loop returns does not depend on the order in which the map
    is ranged over. *)
Lemma range_tl_returns_order kvs kvs' old :
  kvs ≡ₚ kvs' →
  (∃ effs, range_tl kvs old = (effs, Returned tt)) ↔
  (∃ effs, range_tl kvs' old = (effs, Returned tt)).
Proof.
  intros Hperm. rewrite !range_tl_returns.
  split; intros H k v Hin; apply H.
  - by rewrite Hperm.
  - by rewrite <- Hperm.
Qed.


(** Both directions at work: the example logs are reconciled, a fetched log
    with an entry-less entity makes the run panic, and so does a prior log
    with one under a fetched path. *)
Lemma Synchronize_entries_examples :
  Synchronize ["a.txt"; "c.txt"] (Some remote_log) prior_log
  = ([EPostFile "c.txt"; EGetFile "a.txt"; EGetFile "b.txt"],
     Returned remote_log) ∧
  (Synchronize [] (Some hollow_log) ∅).2 = Panicked ∧
  (Synchronize [] (Some remote_log) hollow_log).2 = Panicked.
Proof. split_and!; vm_compute; reflexivity. Qed.

(** The client's own writes keep every entity of the log with an entry:
    [PostFile] and [DeleteFile] only append. *)
Lemma append_entry_nonempty sha1 op clientID path timestamp tl :
  entries_nonempty tl →
  entries_nonempty (append_entry sha1 op clientID path timestamp tl).
Proof.
  intros Hne k v. unfold append_entry.
  destruct (tl !! path) as [entity|] eqn:E.
  - destruct (decide (path = k)) as [->|Hk].
    + rewrite lookup_insert_eq. intros [= <-]. simpl.
      by destruct (Entries entity).
    + rewrite lookup_insert_ne by done. apply Hne.
  - destruct (decide (path = k)) as [->|Hk].
    + rewrite lookup_insert_eq. by intros [= <-].
    + rewrite lookup_insert_ne by done. apply Hne.
Qed.

(** *** C2: what [PostFile] uploads *)

(** What [PostFile] puts on the wire, for any file: the bytes read from
    disk, and no secret. *)
Lemma PostFile_request_data sha1 clientID path fs c :
  req_Data (PostFile_request sha1 clientID path fs c) = ReadFile fs path ∧
  Secret (req_Header (PostFile_request sha1 clientID path fs c)) = [].
Proof. done. Qed.

(** C2 at its failing input: the file [x.txt] holds the five bytes of
    "hello".  The request [PostFile] sends carries these five bytes as
    data, fewer than the one AES block an IV takes, and an empty secret
    where the claim has the ciphertext behind its IV and the wrapped
    session key.  On a node without an envelope for the file the handler
    stores count byte, id and the plain bytes; a later [GetFile] of the
    same client finds no 256-byte wrapped key in it and is refused. *)
Lemma PostFile_uploads_plaintext (sha1 : list byte → Identifier) :
  req_Data (PostFile_request sha1 idA "x.txt" hello_fs 7) = hello ∧
  length (req_Data (PostFile_request sha1 idA "x.txt" hello_fs 7))
    < aes_BlockSize ∧
  Secret (req_Header (PostFile_request sha1 idA "x.txt" hello_fs 7)) = [] ∧
  file.blobs
    (file.PostFileHandler (PostFile_request sha1 idA "x.txt" hello_fs 7)
       (empty_server 0)).2
    !! sha1 (String.list_byte_of_string "x.txt")
  = Some (x01 :: idA ++ hello) ∧
  (file.GetFileHandler
     {| req_Header :=
          {| Key := sha1 (String.list_byte_of_string "x.txt"); From := idA;
             DataLength := 0; ResourceName := ""; Log := false;
             Clock := 0; Secret := []; SharedWith := [] |};
        req_Method := GetFileMethod; req_Data := [] |}
     (file.PostFileHandler (PostFile_request sha1 idA "x.txt" hello_fs 7)
        (empty_server 0)).2).1 = ErrorResponse.
Proof.
  assert (file.blobs
    (file.PostFileHandler (PostFile_request sha1 idA "x.txt" hello_fs 7)
       (empty_server 0)).2
    !! sha1 (String.list_byte_of_string "x.txt")
    = Some (x01 :: idA ++ hello)) as Hblob.
  { rewrite PostFileHandler_absent by done. cbv zeta.
    unfold file.Post, PostFile_request.
    cbn [snd file.blobs req_Header Key req_Data From Secret SharedWith].
    by rewrite lookup_insert_eq. }
  split_and!; try done.
  - vm_compute. lia.
  - unfold file.GetFileHandler. cbn [req_Header Key]. unfold file.Get.
    rewrite Hblob.
    assert (file.read_header (x01 :: idA ++ hello) = None) as ->
      by (vm_compute; reflexivity).
    done.
Qed.

End SyncClaims.

(* ------------------------------------------------------------------ *)
(** ** More on the envelope parser *)

Section ParserFacts.
Import file envelope_format examples more_examples.

Implicit Types (r : Request) (s : Server) (owners : list idSecret).

Lemma read_idSecrets_is_Some (count : nat) (buf : list byte)
  (acc : list idSecret) :
  is_Some (read_idSecrets count buf acc) ↔ 276 * count ≤ length buf.
Proof.
  revert buf acc. induction count as [|count IH]; intros buf acc; simpl.
  - split; [lia | by eexists].
  - rewrite (read_exact_spec 20) by done.
    case_decide as H20; simpl; [|split; [by intros [? ?] | lia]].
    rewrite (read_exact_spec sessionKeyLen) by done.
    rewrite length_drop. unfold sessionKeyLen.
    case_decide as H256; simpl; [|split; [by intros [? ?] | lia]].
    rewrite IH, !length_drop. lia.
Qed.

Lemma read_header_is_Some (buf : list byte) :
  is_Some (read_header buf) ↔
  1 + 276 * Byte.to_nat (hd x00 buf) ≤ length buf.
Proof.
  unfold read_header. rewrite (read_exact_spec 1) by done.
  destruct buf as [|b buf]; simpl.
  - split; [by intros [? ?] | lia].
  - rewrite drop_0, read_idSecrets_is_Some. lia.
Qed.

(** X1: the parser accepts exactly the envelopes: a blob parses to an
    owner table and a ciphertext if and only if it is the count byte, the
    records of the table (20-byte ids, 256-byte wrapped keys, at most 255
    of them) and the ciphertext, in this order. *)
Theorem read_header_iff_envelope (buf : list byte) owners
  (ciphertext : list byte) :
  read_header buf = Some (owners, ciphertext) ↔
  buf = envelope owners ciphertext ∧ Forall wf_idSecret owners ∧
  length owners ≤ 255.
Proof.
  split.
  - intros H. apply read_header_inv in H as (? & ? & ?). done.
  - intros (-> & Hwf & Hlen). by apply read_header_envelope.
Qed.

(** X2: a blob is refused by the parser exactly when it is shorter than
    its count byte announces: empty, or with fewer than 276 bytes per
    announced owner after the count byte. *)
Theorem read_header_None_iff_short (buf : list byte) :
  read_header buf = None ↔
  length buf < 1 + 276 * Byte.to_nat (hd x00 buf).
Proof.
  rewrite eq_None_not_Some, read_header_is_Some. lia.
Qed.

End ParserFacts.

(* ------------------------------------------------------------------ *)
(** ** More on the handlers *)

Section HandlerFacts.
Import file envelope_format examples more_examples.

Implicit Types (r : Request) (s : Server) (owners : list idSecret)
  (h : Handler).

Lemma GetFileHandler_unparsed r s buf :
  Get s (Key (req_Header r)) = Some buf →
  read_header buf = None →
  GetFileHandler r s = (ErrorResponse, s).
Proof.
  intros Hget Hparse. unfold GetFileHandler. by rewrite Hget, Hparse.
Qed.

Lemma DeleteFileHandler_parsed r s buf owners rest :
  Get s (Key (req_Header r)) = Some buf →
  read_header buf = Some (owners, rest) →
  DeleteFileHandler r s =
    let tick := file.IncrementClock (Clock (req_Header r)) s in
    match last_match (From (req_Header r)) owners with
    | Some w =>
        ({| resp_Header := with_Secret (with_Clock Header0 tick.1) w;
            resp_Status := Success; resp_Data := [] |},
         Delete (Key (req_Header r)) tick.2)
    | None => (ErrorResponse, tick.2)
    end.
Proof.
  intros Hget Hparse. unfold DeleteFileHandler. rewrite Hget, Hparse.
  simpl. rewrite check_ids_last_match.
  by destruct (last_match _ owners).
Qed.

Lemma DeleteFileHandler_unparsed r s buf :
  Get s (Key (req_Header r)) = Some buf →
  read_header buf = None →
  DeleteFileHandler r s = (ErrorResponse, s).
Proof.
  intros Hget Hparse. unfold DeleteFileHandler. by rewrite Hget, Hparse.
Qed.

Lemma last_match_is_Some (from : Identifier) owners :
  is_Some (last_match from owners) ↔ from ∈ map ID owners.
Proof.
  rewrite <- not_eq_None_Some, last_match_None.
  split; [apply dec_stable | by intros ? ?].
Qed.

(** X3: a stored blob shorter than its count byte announces is refused by
    the three envelope handlers alike: [GetFile], [PostFile] and
    [DeleteFile] reply the bare [Error] response, and none of them writes
    to the store. *)
Theorem truncated_envelope_refused h r s (buf : list byte) :
  h ∈ [HGetFile; HPostFile; HDeleteFile] →
  Get s (Key (req_Header r)) = Some buf →
  length buf < 1 + 276 * Byte.to_nat (hd x00 buf) →
  (run h r s).1 = ErrorResponse ∧ blobs (run h r s).2 = blobs s.
Proof.
  intros Hh Hget Hshort.
  assert (read_header buf = None) as Hparse.
  { rewrite eq_None_not_Some, read_header_is_Some. lia. }
  apply elem_of_cons in Hh as [->|Hh]; simpl.
  { by rewrite (GetFileHandler_unparsed r s buf). }
  apply elem_of_cons in Hh as [->|Hh]; simpl.
  { split; [by apply (PostFileHandler_unparsed r s buf)|].
    unfold PostFileHandler. rewrite Hget. simpl. by rewrite Hparse. }
  apply list_elem_of_singleton in Hh as ->. simpl.
  by rewrite (DeleteFileHandler_unparsed r s buf).
Qed.

Lemma truncated_envelope_refused_witness :
  (run HDeleteFile (request DeleteFileMethod idA 0 [] [] [])
     (server_with 5 (x03 :: put_idSecret ownerA ++ put_idSecret ownerB))).1
  = ErrorResponse ∧
  blobs
    (run HDeleteFile (request DeleteFileMethod idA 0 [] [] [])
       (server_with 5 (x03 :: put_idSecret ownerA ++ put_idSecret ownerB))).2
  = blobs (server_with 5 (x03 :: put_idSecret ownerA ++ put_idSecret ownerB)).
Proof.
  apply (truncated_envelope_refused HDeleteFile
           (request DeleteFileMethod idA 0 [] [] [])
           (server_with 5 (x03 :: put_idSecret ownerA ++ put_idSecret ownerB))
           (x03 :: put_idSecret ownerA ++ put_idSecret ownerB)).
  - vm_compute. do 2 right. left.
  - vm_compute. reflexivity.
  - vm_compute. lia.
Defined.

(** X4: no handler touches a blob stored under another key than the one of
    the request. *)
Theorem handlers_leave_other_keys h r s (k : Identifier) :
  k ≠ Key (req_Header r) →
  blobs (run h r s).2 !! k = blobs s !! k.
Proof.
  intros Hk. destruct h; simpl.
  - unfold GetFileHandler.
    destruct (Get s _) as [buf|]; [|done].
    destruct (read_header buf) as [[owners rest]|]; [|done].
    by destruct (check_ids _ owners []) as [[] secret].
  - unfold PostFileHandler. simpl.
    destruct (Get s _) as [buf|]; simpl.
    + destruct (read_header buf) as [[owners rest]|]; [|done].
      destruct (check_ids _ owners []) as [[] secret]; simpl; [|done].
      by rewrite lookup_insert_ne.
    + by rewrite lookup_insert_ne.
  - unfold DeleteFileHandler.
    destruct (Get s _) as [buf|]; [|done].
    destruct (read_header buf) as [[owners rest]|]; [|done]. simpl.
    destruct (check_ids _ owners []) as [[] secret]; simpl; [|done].
    by rewrite lookup_delete_ne.
  - unfold GetPublicKeyHandler. simpl. unfold Get. simpl.
    by destruct (blobs s !! Key (req_Header r)).
  - unfold PostPublicKeyHandler. simpl. by rewrite lookup_insert_ne.
Qed.

Lemma handlers_leave_other_keys_witness :
  blobs (run HPostFile (request PostFileMethod idA 0 secA [] cipher1)
           (server_with 5 (envelope [ownerA] cipher0))).2 !! key1
  = blobs (server_with 5 (envelope [ownerA] cipher0)) !! key1.
Proof.
  apply (handlers_leave_other_keys HPostFile
           (request PostFileMethod idA 0 secA [] cipher1)
           (server_with 5 (envelope [ownerA] cipher0)) key1).
  vm_compute. discriminate.
Defined.

(** X5: [GetFile] is a pure read: whatever the request and whatever is
    stored, it leaves the node as it found it, store and clock. *)
Theorem GetFileHandler_reads_only r s : (GetFileHandler r s).2 = s.
Proof.
  unfold GetFileHandler.
  destruct (Get s _) as [buf|]; [|done].
  destruct (read_header buf) as [[owners rest]|]; [|done].
  by destruct (check_ids _ owners []) as [[] secret].
Qed.

(** X6: [GetFile] replies [Success] exactly when a well-formed envelope is
    stored under the key and the requester's id is in its owner table; a
    missing blob, a blob that does not parse and a requester outside the
    table all end in [Error]. *)
Theorem GetFile_success_iff r s :
  resp_Status (GetFileHandler r s).1 = Success ↔
  ∃ owners ciphertext,
    Get s (Key (req_Header r)) = Some (envelope owners ciphertext) ∧
    Forall wf_idSecret owners ∧ length owners ≤ 255 ∧
    From (req_Header r) ∈ map ID owners.
Proof.
  split.
  - destruct (Get s (Key (req_Header r))) as [buf|] eqn:Hget.
    + destruct (read_header buf) as [[owners rest]|] eqn:Hparse.
      * rewrite (GetFileHandler_parsed r s _ _ _ Hget Hparse).
        destruct (last_match _ owners) as [w|] eqn:Hlast; [|done].
        intros _. apply read_header_inv in Hparse as (Hwf & Hlen & ->).
        exists owners, rest. split_and!; try done.
        apply last_match_is_Some. by eexists.
      * by rewrite (GetFileHandler_unparsed r s _ Hget Hparse).
    + unfold GetFileHandler. by rewrite Hget.
  - intros (owners & c & Hget & Hwf & Hlen & Hin).
    rewrite (GetFileHandler_parsed r s _ _ _ Hget
               (read_header_envelope _ _ Hwf Hlen)).
    apply last_match_is_Some in Hin as [w ->]. done.
Qed.

(** X7: [DeleteFile] replies [Success] exactly under the condition under
    which [GetFile] does: a well-formed envelope under the key with the
    requester in its owner table. *)
Theorem DeleteFile_success_iff r s :
  resp_Status (DeleteFileHandler r s).1 = Success ↔
  ∃ owners ciphertext,
    Get s (Key (req_Header r)) = Some (envelope owners ciphertext) ∧
    Forall wf_idSecret owners ∧ length owners ≤ 255 ∧
    From (req_Header r) ∈ map ID owners.
Proof.
  split.
  - destruct (Get s (Key (req_Header r))) as [buf|] eqn:Hget.
    + destruct (read_header buf) as [[owners rest]|] eqn:Hparse.
      * rewrite (DeleteFileHandler_parsed r s _ _ _ Hget Hparse). cbv zeta.
        destruct (last_match _ owners) as [w|] eqn:Hlast; [|done].
        intros _. apply read_header_inv in Hparse as (Hwf & Hlen & ->).
        exists owners, rest. split_and!; try done.
        apply last_match_is_Some. by eexists.
      * by rewrite (DeleteFileHandler_unparsed r s _ Hget Hparse).
    + unfold DeleteFileHandler. by rewrite Hget.
  - intros (owners & c & Hget & Hwf & Hlen & Hin).
    rewrite (DeleteFileHandler_parsed r s _ _ _ Hget
               (read_header_envelope _ _ Hwf Hlen)). cbv zeta.
    apply last_match_is_Some in Hin as [w ->]. done.
Qed.

(** X8: what [DeleteFile] does to the store: on [Success] the blob under
    the key is removed, entirely and nothing else; on [Error] the store is
    what it was. *)
Theorem DeleteFile_store r s :
  blobs (DeleteFileHandler r s).2 =
    if decide (resp_Status (DeleteFileHandler r s).1 = Success)
    then delete (Key (req_Header r)) (blobs s)
    else blobs s.
Proof.
  unfold DeleteFileHandler.
  destruct (Get s _) as [buf|]; [|done].
  destruct (read_header buf) as [[owners rest]|]; [|done]. simpl.
  by destruct (check_ids _ owners []) as [[] secret].
Qed.

(** X9: once an owner's [DeleteFile] has succeeded, [GetFile] on the key
    is refused to every requester, the former owners included. *)
Theorem GetFile_after_DeleteFile r r' s :
  resp_Status (DeleteFileHandler r s).1 = Success →
  Key (req_Header r') = Key (req_Header r) →
  (GetFileHandler r' (DeleteFileHandler r s).2).1 = ErrorResponse.
Proof.
  intros Hok Hkey. revert Hok. unfold DeleteFileHandler.
  destruct (Get s _) as [buf|]; [|done].
  destruct (read_header buf) as [[owners rest]|]; [|done]. simpl.
  destruct (check_ids _ owners []) as [[] secret]; [|done]. simpl.
  intros _. unfold GetFileHandler, Get. simpl.
  by rewrite Hkey, lookup_delete_eq.
Qed.

Lemma GetFile_after_DeleteFile_witness :
  (GetFileHandler (request GetFileMethod idA 0 [] [] [])
     (DeleteFileHandler (request DeleteFileMethod idB 0 [] [] [])
        (server_with 5 (envelope [ownerA; ownerB] cipher0))).2).1
  = ErrorResponse.
Proof.
  apply (GetFile_after_DeleteFile
           (request DeleteFileMethod idB 0 [] [] [])
           (request GetFileMethod idA 0 [] [] [])
           (server_with 5 (envelope [ownerA; ownerB] cipher0))).
  - vm_compute. reflexivity.
  - reflexivity.
Defined.

Lemma last_match_app (from : Identifier) (l1 l2 : list idSecret) :
  last_match from (l1 ++ l2) =
    match last_match from l2 with
    | Some w => Some w
    | None => last_match from l1
    end.
Proof.
  unfold last_match, first_match. rewrite rev_app_distr, find_app_split.
  by destruct (find _ (rev l2)).
Qed.

(** What [GetFile] answers once [PostFile] has created the envelope. *)
Lemma GetFile_after_create r r' s :
  Get s (Key (req_Header r)) = None →
  Forall wf_idSecret
    ({| ID := From (req_Header r); Secret_ := Secret (req_Header r) |}
       :: map idSecret_of (SharedWith (req_Header r))) →
  length (SharedWith (req_Header r)) ≤ 254 →
  Key (req_Header r') = Key (req_Header r) →
  (GetFileHandler r' (PostFileHandler r s).2).1 =
    match last_match (From (req_Header r'))
            ({| ID := From (req_Header r);
                Secret_ := Secret (req_Header r) |}
               :: map idSecret_of (SharedWith (req_Header r))) with
    | Some w => GetFile_reply w (req_Data r)
    | None => ErrorResponse
    end.
Proof.
  intros Hget Hwf Hlen Hkey.
  pose proof (PostFile_new_envelope_format r s Hget) as Hblob.
  rewrite <- Hkey in Hblob.
  erewrite GetFileHandler_parsed; [done|exact Hblob|].
  apply read_header_envelope; [done|].
  simpl. rewrite length_map. lia.
Qed.

(** X10: a first [PostFile] followed by a [GetFile] of the poster gives
    back what was posted: the wrapped key of the request as secret and the
    request data as data.  The ids and wrapped keys have the sizes of the
    format, at most 254 users are shared with, and the poster is not among
    them. *)
Theorem GetFile_after_first_PostFile r r' s :
  Get s (Key (req_Header r)) = None →
  Forall wf_idSecret
    ({| ID := From (req_Header r); Secret_ := Secret (req_Header r) |}
       :: map idSecret_of (SharedWith (req_Header r))) →
  length (SharedWith (req_Header r)) ≤ 254 →
  From (req_Header r) ∉ map ss_ID (SharedWith (req_Header r)) →
  Key (req_Header r') = Key (req_Header r) →
  From (req_Header r') = From (req_Header r) →
  (GetFileHandler r' (PostFileHandler r s).2).1
  = GetFile_reply (Secret (req_Header r)) (req_Data r).
Proof.
  intros Hget Hwf Hlen Hnot Hkey Hfrom.
  rewrite (GetFile_after_create r r' s Hget Hwf Hlen Hkey), Hfrom.
  assert (last_match (From (req_Header r))
            ({| ID := From (req_Header r);
                Secret_ := Secret (req_Header r) |}
               :: map idSecret_of (SharedWith (req_Header r)))
          = Some (Secret (req_Header r))) as ->; [|done].
  apply last_match_Some. eexists [], _, _. split_and!; try done.
  by rewrite map_map.
Qed.

Lemma GetFile_after_first_PostFile_witness :
  (GetFileHandler (request GetFileMethod idA 0 [] [] [])
     (PostFileHandler (request PostFileMethod idA 3 secA [shareB] cipher0)
        (empty_server 4)).2).1
  = GetFile_reply secA cipher0.
Proof.
  apply (GetFile_after_first_PostFile
           (request PostFileMethod idA 3 secA [shareB] cipher0)
           (request GetFileMethod idA 0 [] [] []) (empty_server 4)).
  - reflexivity.
  - repeat constructor.
  - simpl. lia.
  - vm_compute. intros H.
    repeat (inversion H as [|? ? ? H']; clear H; rename H' into H; subst).
  - reflexivity.
  - reflexivity.
Defined.

(** X11: the users a first [PostFile] shares with can read at once, as
    long as the envelope fits its format: with 20-byte ids, 256-byte
    wrapped keys and at most 254 shared-with records, a [GetFile] of a
    shared-with id is answered with the wrapped key of its last record in
    the request and the posted data.  (With 255 records the count byte
    wraps and nobody can read, see [first_PostFile_255_shares_locks_out].) *)
Theorem GetFile_shared_after_first_PostFile r r' s (w : list byte) :
  Get s (Key (req_Header r)) = None →
  Forall wf_idSecret
    ({| ID := From (req_Header r); Secret_ := Secret (req_Header r) |}
       :: map idSecret_of (SharedWith (req_Header r))) →
  length (SharedWith (req_Header r)) ≤ 254 →
  last_match (From (req_Header r'))
    (map idSecret_of (SharedWith (req_Header r))) = Some w →
  Key (req_Header r') = Key (req_Header r) →
  (GetFileHandler r' (PostFileHandler r s).2).1
  = GetFile_reply w (req_Data r).
Proof.
  intros Hget Hwf Hlen Hlast Hkey.
  rewrite (GetFile_after_create r r' s Hget Hwf Hlen Hkey).
  change (?x :: map idSecret_of ?l) with ([x] ++ map idSecret_of l).
  by rewrite last_match_app, Hlast.
Qed.

Lemma GetFile_shared_after_first_PostFile_witness :
  (GetFileHandler (request GetFileMethod idB 0 [] [] [])
     (PostFileHandler (request PostFileMethod idA 3 secA [shareB] cipher0)
        (empty_server 4)).2).1
  = GetFile_reply secB cipher0.
Proof.
  apply (GetFile_shared_after_first_PostFile
           (request PostFileMethod idA 3 secA [shareB] cipher0)
           (request GetFileMethod idB 0 [] [] []) (empty_server 4) secB).
  - reflexivity.
  - repeat constructor.
  - simpl. lia.
  - vm_compute. reflexivity.
  - reflexivity.
Defined.

(** What [GetFile] answers once an owner's [PostFile] has rewritten the
    envelope. *)
Lemma GetFile_after_update r r' s owners (ciphertext w0 : list byte) :
  Forall wf_idSecret owners →
  Get s (Key (req_Header r)) = Some (envelope owners ciphertext) →
  last_match (From (req_Header r)) owners = Some w0 →
  Forall wf_idSecret (map idSecret_of (SharedWith (req_Header r))) →
  length owners + length (SharedWith (req_Header r)) ≤ 255 →
  Key (req_Header r') = Key (req_Header r) →
  (GetFileHandler r' (PostFileHandler r s).2).1 =
    match last_match (From (req_Header r'))
            (owners ++ map idSecret_of (SharedWith (req_Header r))) with
    | Some w => GetFile_reply w (req_Data r)
    | None => ErrorResponse
    end.
Proof.
  intros Hwf Hget Hlast Hwfs Hlen Hkey.
  assert (length owners ≤ 255) as Hlen0 by lia.
  pose proof (PostFile_update_envelope r s _ _ _ Hwf Hlen0 Hget Hlast)
    as Hblob.
  rewrite <- Hkey in Hblob.
  erewrite GetFileHandler_parsed; [done|exact Hblob|].
  apply read_header_envelope.
  - by apply Forall_app.
  - rewrite length_app, length_map. lia.
Qed.



(** X13: sharing grants access as long as the owner table still fits: with
    records of the format's sizes and at most 255 of them in all, old and
    new, a [GetFile] of a user the owner's update shares with is answered
    with the wrapped key of that user's last record in the request, also
    when the user already had a record in the table, and with the new
    data. *)
Theorem PostFile_update_grants_access r r' s owners
  (ciphertext w0 w : list byte) :
  Forall wf_idSecret owners →
  Get s (Key (req_Header r)) = Some (envelope owners ciphertext) →
  last_match (From (req_Header r)) owners = Some w0 →
  Forall wf_idSecret (map idSecret_of (SharedWith (req_Header r))) →
  length owners + length (SharedWith (req_Header r)) ≤ 255 →
  Key (req_Header r') = Key (req_Header r) →
  last_match (From (req_Header r'))
    (map idSecret_of (SharedWith (req_Header r))) = Some w →
  (GetFileHandler r' (PostFileHandler r s).2).1
  = GetFile_reply w (req_Data r).
Proof.
  intros Hwf Hget Hlast Hwfs Hlen Hkey Hnew.
  rewrite (GetFile_after_update r r' s _ _ _ Hwf Hget Hlast Hwfs Hlen Hkey).
  by rewrite last_match_app, Hnew.
Qed.

Lemma PostFile_update_grants_access_witness :
  (GetFileHandler (request GetFileMethod idB 0 [] [] [])
     (PostFileHandler (request PostFileMethod idA 3 secA [shareB] cipher1)
        (server_with 5 (envelope [ownerA] cipher0))).2).1
  = GetFile_reply secB cipher1.
Proof.
  apply (PostFile_update_grants_access
           (request PostFileMethod idA 3 secA [shareB] cipher1)
           (request GetFileMethod idB 0 [] [] [])
           (server_with 5 (envelope [ownerA] cipher0))
           [ownerA] cipher0 secA secB).
  - repeat constructor.
  - vm_compute. reflexivity.
  - vm_compute. reflexivity.
  - repeat constructor.
  - simpl. lia.
  - reflexivity.
  - vm_compute. reflexivity.
Defined.



(** A first [PostFile] without shared-with records, read back by the
    poster: the parser takes the 256 bytes after the id for the wrapped
    key, wherever they come from. *)
Lemma GetFile_after_unshared_create r r' s :
  Get s (Key (req_Header r)) = None →
  SharedWith (req_Header r) = [] →
  length (From (req_Header r)) = 20 →
  Key (req_Header r') = Key (req_Header r) →
  From (req_Header r') = From (req_Header r) →
  (GetFileHandler r' (PostFileHandler r s).2).1 =
    if decide (256 ≤ length (Secret (req_Header r) ++ req_Data r))
    then GetFile_reply (take 256 (Secret (req_Header r) ++ req_Data r))
           (drop 256 (Secret (req_Header r) ++ req_Data r))
    else ErrorResponse.
Proof.
  intros Hget Hsw Hlen Hkey Hfrom.
  rewrite (PostFileHandler_absent r s Hget). cbv zeta.
  unfold GetFileHandler, Get, Post. cbn [snd blobs].
  rewrite Hkey, lookup_insert_eq, Hsw, Hfrom.
  cbn [length map concat]. change (byte_of_int (1 + 0)) with x01.
  unfold read_header.
  rewrite (read_exact_app [x01]) by done. cbn [mbind option_bind hd].
  change (Byte.to_nat x01) with 1. cbn [read_idSecrets].
  rewrite <- Hlen at 1.
  rewrite read_exact_app by (intros E; by rewrite E in Hlen).
  cbn [mbind option_bind app].
  rewrite (read_exact_spec sessionKeyLen) by done.
  unfold sessionKeyLen.
  case_decide; cbn [mbind option_bind]; [|done].
  unfold check_ids. cbn [fold_left ID Secret_].
  rewrite decide_True by done. cbn [negb].
  by rewrite read_to_end_all.
Qed.

(** X15: [GetPublicKey] hands the blob under the key to whoever asks: the
    reply is [Success] with the whole blob as data, owner table included
    when the blob is an envelope; only a missing blob ends in [Error]. *)
Theorem GetPublicKey_returns_blob r s :
  (Get s (Key (req_Header r)) = None →
   (GetPublicKeyHandler r s).1 = ErrorResponse) ∧
  (∀ blob, Get s (Key (req_Header r)) = Some blob →
   resp_Status (GetPublicKeyHandler r s).1 = Success ∧
   resp_Data (GetPublicKeyHandler r s).1 = blob).
Proof.
  unfold GetPublicKeyHandler, Get. simpl.
  destruct (blobs s !! Key (req_Header r)) as [buf|]; simpl.
  - split; [done|]. intros blob [= <-]. by rewrite read_to_end_all.
  - done.
Qed.

Lemma GetPublicKey_returns_blob_witness :
  resp_Status
    (GetPublicKeyHandler (request GetPublicKeyMethod idC 0 [] [] [])
       (server_with 5 (envelope [ownerA] cipher0))).1 = Success ∧
  resp_Data
    (GetPublicKeyHandler (request GetPublicKeyMethod idC 0 [] [] [])
       (server_with 5 (envelope [ownerA] cipher0))).1
  = envelope [ownerA] cipher0.
Proof.
  apply (GetPublicKey_returns_blob
           (request GetPublicKeyMethod idC 0 [] [] [])
           (server_with 5 (envelope [ownerA] cipher0))).
  vm_compute. reflexivity.
Defined.

(** X16: what [PostPublicKey] stores is what [GetPublicKey] returns: the
    posted bytes come back unchanged, whatever was under the key before. *)
Theorem GetPublicKey_after_PostPublicKey r r' s :
  Key (req_Header r') = Key (req_Header r) →
  resp_Status (GetPublicKeyHandler r' (PostPublicKeyHandler r s).2).1
  = Success ∧
  resp_Data (GetPublicKeyHandler r' (PostPublicKeyHandler r s).2).1
  = req_Data r.
Proof.
  intros Hkey. unfold GetPublicKeyHandler, PostPublicKeyHandler, Get, Post.
  simpl. rewrite Hkey, lookup_insert_eq. simpl.
  by rewrite read_to_end_all.
Qed.

Lemma GetPublicKey_after_PostPublicKey_witness :
  resp_Status
    (GetPublicKeyHandler (request GetPublicKeyMethod idB 0 [] [] [])
       (PostPublicKeyHandler (request PostPublicKeyMethod idA 0 [] [] cipher1)
          (empty_server 2)).2).1 = Success ∧
  resp_Data
    (GetPublicKeyHandler (request GetPublicKeyMethod idB 0 [] [] [])
       (PostPublicKeyHandler (request PostPublicKeyMethod idA 0 [] [] cipher1)
          (empty_server 2)).2).1 = cipher1.
Proof.
  apply (GetPublicKey_after_PostPublicKey
           (request PostPublicKeyMethod idA 0 [] [] cipher1)
           (request GetPublicKeyMethod idB 0 [] [] []) (empty_server 2)).
  reflexivity.
Defined.

(** X17: [PostPublicKey] checks no ownership: whatever is stored under the
    key and whoever posts, the posted bytes replace it.  When they are an
    envelope, [GetFile] afterwards answers by the owner table of the posted
    envelope alone. *)
Theorem PostPublicKey_replaces_envelope r r' s owners
  (ciphertext w : list byte) :
  Forall wf_idSecret owners →
  length owners ≤ 255 →
  req_Data r = envelope owners ciphertext →
  Key (req_Header r') = Key (req_Header r) →
  last_match (From (req_Header r')) owners = Some w →
  resp_Status (PostPublicKeyHandler r s).1 = Success ∧
  (GetFileHandler r' (PostPublicKeyHandler r s).2).1
  = GetFile_reply w ciphertext.
Proof.
  intros Hwf Hlen Hdata Hkey Hlast. split; [done|].
  assert (Get (PostPublicKeyHandler r s).2 (Key (req_Header r'))
          = Some (envelope owners ciphertext)) as Hget.
  { unfold PostPublicKeyHandler, Get, Post. simpl.
    by rewrite Hkey, lookup_insert_eq, Hdata. }
  rewrite (GetFileHandler_parsed r' _ _ _ _ Hget
             (read_header_envelope _ _ Hwf Hlen)).
  by rewrite Hlast.
Qed.

Lemma PostPublicKey_replaces_envelope_witness :
  resp_Status
    (PostPublicKeyHandler
       (request PostPublicKeyMethod idC 0 [] [] (envelope [ownerC] cipher1))
       (server_with 5 (envelope [ownerA] cipher0))).1 = Success ∧
  (GetFileHandler (request GetFileMethod idC 0 [] [] [])
     (PostPublicKeyHandler
        (request PostPublicKeyMethod idC 0 [] [] (envelope [ownerC] cipher1))
        (server_with 5 (envelope [ownerA] cipher0))).2).1
  = GetFile_reply secB cipher1.
Proof.
  apply (PostPublicKey_replaces_envelope
           (request PostPublicKeyMethod idC 0 [] []
              (envelope [ownerC] cipher1))
           (request GetFileMethod idC 0 [] [] [])
           (server_with 5 (envelope [ownerA] cipher0))
           [ownerC] cipher1 secB).
  - repeat constructor.
  - simpl. lia.
  - reflexivity.
  - reflexivity.
  - vm_compute. reflexivity.
Defined.

End HandlerFacts.

(* ------------------------------------------------------------------ *)
(** ** More on the synchronisation *)

Section SyncFacts.
Import client sync_vocabulary examples sync_examples more_examples.

Implicit Types (k : string) (v oldv : TransactionEntity)
  (old tl : TransactionLog) (e : Effect).

(** X18: the selection loop and its description are the same thing: it
    returns an entry exactly when that entry has the maximum timestamp of
    the list and is the latest one carrying it; it returns none (the index
    panic) only on the empty list. *)
Theorem lastEntryOf_iff_last_max (l : list TransactionEntry)
  (x : TransactionEntry) :
  (lastEntryOf l = Some x ↔ is_last_max l x) ∧
  (lastEntryOf l = None ↔ l = []).
Proof.
  split.
  - split; [apply lastEntryOf_is_last_max | apply last_max_lastEntryOf].
  - by destruct l.
Qed.

(** What one round of the loop body can have done. *)
Lemma reconcile_effect_inv k v old effs e :
  reconcile k v old = Some effs → e ∈ effs →
  ∃ remote_last,
    is_last_max (Entries v) remote_last ∧
    ((old !! k = None ∧ e = EGetFile k) ∨
     ∃ oldv local_last,
       old !! k = Some oldv ∧ is_last_max (Entries oldv) local_last ∧
       (((Timestamp local_last < Timestamp remote_last)%Z ∧
         e = if decide (Operation_ remote_last = DeleteOperation)
             then ERemove k else EGetFile k) ∨
        ((Timestamp remote_last < Timestamp local_last)%Z ∧
         e = if decide (Operation_ local_last = DeleteOperation)
             then EDeleteFile k else EPostFile k))).
Proof.
  unfold reconcile.
  destruct (lastEntryOf (Entries v)) as [rl|] eqn:Erl; [|done]. simpl.
  intros H Hin. exists rl. split; [by apply lastEntryOf_is_last_max|].
  destruct (old !! k) as [oldv|]; simpl in H.
  - right.
    destruct (lastEntryOf (Entries oldv)) as [ll|] eqn:Ell; [|done].
    simpl in H. exists oldv, ll.
    split; [done|]. split; [by apply lastEntryOf_is_last_max|].
    destruct (Z.ltb_spec (Timestamp ll) (Timestamp rl)) as [Hlt|Hge].
    + left. split; [done|].
      case_decide; injection H as <-;
        by apply list_elem_of_singleton in Hin.
    + destruct (Z.eqb_spec (Timestamp ll) (Timestamp rl)) as [Heq|Hne].
      * injection H as <-. by apply not_elem_of_nil in Hin.
      * right. split; [lia|].
        case_decide; injection H as <-;
          by apply list_elem_of_singleton in Hin.
  - left. injection H as <-. by apply list_elem_of_singleton in Hin.
Qed.

Lemma range_tl_effect_inv kvs old e :
  e ∈ (range_tl kvs old).1 →
  ∃ k v effs, (k, v) ∈ kvs ∧ reconcile k v old = Some effs ∧ e ∈ effs.
Proof.
  induction kvs as [|[k v] kvs IH]; simpl.
  - intros Hin. by apply not_elem_of_nil in Hin.
  - destruct (reconcile k v old) as [effs|] eqn:E; simpl.
    + destruct (range_tl kvs old) as [effs' out]. simpl in *.
      intros [Hin|Hin]%elem_of_app.
      * exists k, v, effs. split_and!; [apply elem_of_cons; by left|done..].
      * destruct (IH Hin) as (k' & v' & effs'' & ? & ? & ?).
        exists k', v', effs''. split_and!; [apply elem_of_cons; by right|done..].
    + intros Hin. by apply not_elem_of_nil in Hin.
Qed.

Lemma Synchronize_effect_inv localFiles fetched old e :
  e ∈ (Synchronize localFiles fetched old).1 →
  (∃ path, e = EPostFile path ∧ path ∈ localFiles ∧
           default ∅ fetched !! path = None) ∨
  ∃ k v effs,
    default ∅ fetched !! k = Some v ∧ reconcile k v old = Some effs ∧
    e ∈ effs.
Proof.
  unfold Synchronize.
  destruct (range_tl _ old) as [effs out] eqn:E. simpl.
  intros [Hin|Hin]%elem_of_app.
  - left. unfold walk in Hin.
    apply list_elem_of_fmap in Hin as (path & -> & Hin).
    apply list_elem_of_filter in Hin as [? ?]. by exists path.
  - right. change effs with (effs, out).1 in Hin. rewrite <- E in Hin.
    apply range_tl_effect_inv in Hin as (k & v & effs' & Hkv & ? & ?).
    apply elem_of_map_to_list in Hkv. by exists k, v, effs'.
Qed.

(** X19: [Synchronize] removes a local file only for a path that both logs
    have and whose newest remote entry is a [Delete] strictly newer than
    the newest entry of the prior log.  This holds of every removal in the
    run, also of a run that panics later. *)
Theorem Synchronize_removes_only_newer_delete localFiles fetched old k :
  ERemove k ∈ (Synchronize localFiles fetched old).1 →
  ∃ v oldv remote_last local_last,
    default ∅ fetched !! k = Some v ∧ old !! k = Some oldv ∧
    is_last_max (Entries v) remote_last ∧
    is_last_max (Entries oldv) local_last ∧
    Operation_ remote_last = DeleteOperation ∧
    (Timestamp local_last < Timestamp remote_last)%Z.
Proof.
  intros [(path & ? & _)|(k' & v & effs & Hv & Hrec & Hin)]
    %Synchronize_effect_inv; [done|].
  destruct (reconcile_effect_inv _ _ _ _ _ Hrec Hin)
    as (rl & Hrl & [[_ ?]|(oldv & ll & Hold & Hll & Hcase)]); [done|].
  destruct Hcase as [[Hlt He]|[Hlt He]]; case_decide; try done.
  injection He as ->. by exists v, oldv, rl, ll.
Qed.

Lemma Synchronize_removes_only_newer_delete_witness :
  ∃ v oldv remote_last local_last,
    remote_log !! "b.txt" = Some v ∧
    ({[ "b.txt" := entity "b.txt" [entry UpdateOperation 2] ]}
       : TransactionLog) !! "b.txt" = Some oldv ∧
    is_last_max (Entries v) remote_last ∧
    is_last_max (Entries oldv) local_last ∧
    Operation_ remote_last = DeleteOperation ∧
    (Timestamp local_last < Timestamp remote_last)%Z.
Proof.
  apply (Synchronize_removes_only_newer_delete []
           (Some remote_log)
           {[ "b.txt" := entity "b.txt" [entry UpdateOperation 2] ]}
           "b.txt").
  vm_compute. do 1 right. left.
Defined.

(** X20: [Synchronize] calls [DeleteFile] only for a path that both logs
    have and whose newest prior entry is a [Delete] strictly newer than the
    newest remote entry. *)
Theorem Synchronize_deletes_only_newer_local_delete localFiles fetched old k :
  EDeleteFile k ∈ (Synchronize localFiles fetched old).1 →
  ∃ v oldv remote_last local_last,
    default ∅ fetched !! k = Some v ∧ old !! k = Some oldv ∧
    is_last_max (Entries v) remote_last ∧
    is_last_max (Entries oldv) local_last ∧
    Operation_ local_last = DeleteOperation ∧
    (Timestamp remote_last < Timestamp local_last)%Z.
Proof.
  intros [(path & ? & _)|(k' & v & effs & Hv & Hrec & Hin)]
    %Synchronize_effect_inv; [done|].
  destruct (reconcile_effect_inv _ _ _ _ _ Hrec Hin)
    as (rl & Hrl & [[_ ?]|(oldv & ll & Hold & Hll & Hcase)]); [done|].
  destruct Hcase as [[Hlt He]|[Hlt He]]; case_decide; try done.
  injection He as ->. by exists v, oldv, rl, ll.
Qed.

Lemma Synchronize_deletes_only_newer_local_delete_witness :
  ∃ v oldv remote_last local_last,
    prior_log !! "a.txt" = Some v ∧
    ({[ "a.txt" := entity "a.txt"
          [entry UpdateOperation 3; entry DeleteOperation 9] ]}
       : TransactionLog) !! "a.txt" = Some oldv ∧
    is_last_max (Entries v) remote_last ∧
    is_last_max (Entries oldv) local_last ∧
    Operation_ local_last = DeleteOperation ∧
    (Timestamp remote_last < Timestamp local_last)%Z.
Proof.
  apply (Synchronize_deletes_only_newer_local_delete []
           (Some prior_log)
           {[ "a.txt" := entity "a.txt"
                [entry UpdateOperation 3; entry DeleteOperation 9] ]}
           "a.txt").
  vm_compute. left.
Defined.

(** X21: [Synchronize] calls [PostFile] only for a local file the fetched
    log does not have, or for a path of both logs whose newest prior entry
    is strictly newer than the newest remote one and is not a [Delete]. *)
Theorem Synchronize_posts_only_novel_or_newer localFiles fetched old k :
  EPostFile k ∈ (Synchronize localFiles fetched old).1 →
  (k ∈ localFiles ∧ default ∅ fetched !! k = None) ∨
  ∃ v oldv remote_last local_last,
    default ∅ fetched !! k = Some v ∧ old !! k = Some oldv ∧
    is_last_max (Entries v) remote_last ∧
    is_last_max (Entries oldv) local_last ∧
    Operation_ local_last ≠ DeleteOperation ∧
    (Timestamp remote_last < Timestamp local_last)%Z.
Proof.
  intros [(path & [= ->] & ? & ?)|(k' & v & effs & Hv & Hrec & Hin)]
    %Synchronize_effect_inv; [by left|].
  right.
  destruct (reconcile_effect_inv _ _ _ _ _ Hrec Hin)
    as (rl & Hrl & [[_ ?]|(oldv & ll & Hold & Hll & Hcase)]); [done|].
  destruct Hcase as [[Hlt He]|[Hlt He]]; case_decide; try done.
  injection He as ->. by exists v, oldv, rl, ll.
Qed.

Lemma Synchronize_posts_only_novel_or_newer_witness :
  ("c.txt" ∈ ["a.txt"; "c.txt"] ∧ remote_log !! "c.txt" = None) ∨
  ∃ v oldv remote_last local_last,
    remote_log !! "c.txt" = Some v ∧ prior_log !! "c.txt" = Some oldv ∧
    is_last_max (Entries v) remote_last ∧
    is_last_max (Entries oldv) local_last ∧
    Operation_ local_last ≠ DeleteOperation ∧
    (Timestamp remote_last < Timestamp local_last)%Z.
Proof.
  apply (Synchronize_posts_only_novel_or_newer ["a.txt"; "c.txt"]
           (Some remote_log) prior_log "c.txt").
  vm_compute. left.
Defined.




Lemma reconcile_same k v tl :
  tl !! k = Some v → Entries v ≠ [] → reconcile k v tl = Some [].
Proof.
  intros Hk Hv. unfold reconcile. rewrite Hk.
  destruct (lastEntryOf (Entries v)) as [x|] eqn:E; simpl.
  - by rewrite Z.ltb_irrefl, Z.eqb_refl.
  - by destruct (Entries v).
Qed.




(** With the log not fetched and a walk in which every [Lstat] succeeds:
    every local file is posted again and the empty log handed back. *)
Lemma Synchronize_fetch_failed_files localFiles old :
  Synchronize localFiles None old = (map EPostFile localFiles, Returned ∅).
Proof.
  unfold Synchronize, walk. simpl. rewrite map_to_list_empty. simpl.
  rewrite app_nil_r. do 2 f_equal.
  induction localFiles as [|path l IH]; [done|].
  rewrite filter_cons_True by apply lookup_empty. by rewrite IH.
Qed.


Lemma append_entry_lookup sha1 op clientID path timestamp tl v :
  tl !! path = Some v →
  append_entry sha1 op clientID path timestamp tl !! path
  = Some {| ResourceName_ := ResourceName_ v; ResourceID := ResourceID v;
            Entries := Entries v
              ++ [{| Operation_ := op; ClientID := clientID;
                     Timestamp := timestamp |}] |}.
Proof.
  intros Hv. unfold append_entry. rewrite Hv. by rewrite lookup_insert_eq.
Qed.

Lemma last_max_snoc_newer (l : list TransactionEntry)
  (m x : TransactionEntry) :
  is_last_max l m → (Timestamp m ≤ Timestamp x)%Z → is_last_max (l ++ [x]) x.
Proof.
  intros (l1 & l2 & -> & Hle & Hlt) Hmx. exists (l1 ++ m :: l2), [].
  split_and!; [done| |].
  - intros y [Hy|Hy]%elem_of_app; [specialize (Hle y Hy); lia|].
    apply elem_of_cons in Hy as [->|Hy]; [done|].
    specialize (Hlt y Hy). lia.
  - intros y Hy. by apply not_elem_of_nil in Hy.
Qed.

Lemma last_max_snoc_older (l : list TransactionEntry)
  (m x : TransactionEntry) :
  is_last_max l m → (Timestamp x < Timestamp m)%Z → is_last_max (l ++ [x]) m.
Proof.
  intros (l1 & l2 & -> & Hle & Hlt) Hxm. exists l1, (l2 ++ [x]).
  split_and!; [by rewrite <- (assoc_L (++))|done|].
  intros y [Hy|Hy]%elem_of_app; [by apply Hlt|].
  by apply list_elem_of_singleton in Hy as ->.
Qed.

(** X26: an entry appended by [PostFile] or [DeleteFile] is the one the
    selection of [Synchronize] picks afterwards when no entry of the path
    has a greater timestamp, ties included; when the path already has an
    entry with a greater timestamp the appended one is never picked, and
    the selection stays where it was. *)
Theorem append_entry_selection sha1 op clientID path timestamp tl v
  (m : TransactionEntry) :
  tl !! path = Some v →
  is_last_max (Entries v) m →
  ∃ v',
    append_entry sha1 op clientID path timestamp tl !! path = Some v' ∧
    lastEntryOf (Entries v') =
      Some (if decide (Timestamp m ≤ timestamp)%Z
            then {| Operation_ := op; ClientID := clientID;
                    Timestamp := timestamp |}
            else m).
Proof.
  intros Hv Hm. eexists. split; [by apply append_entry_lookup|].
  simpl. apply last_max_lastEntryOf. case_decide.
  - by apply (last_max_snoc_newer _ m).
  - apply last_max_snoc_older; [done|simpl; lia].
Qed.

Lemma append_entry_selection_witness :
  ∃ v',
    append_entry (fun _ => key0) DeleteOperation idB "a.txt" 7 remote_log
      !! "a.txt" = Some v' ∧
    lastEntryOf (Entries v') =
      Some (if decide (Timestamp (entry UpdateOperation 7) ≤ 7)%Z
            then {| Operation_ := DeleteOperation; ClientID := idB;
                    Timestamp := 7 |}
            else entry UpdateOperation 7).
Proof.
  apply (append_entry_selection (fun _ => key0) DeleteOperation idB "a.txt" 7
           remote_log remote_a (entry UpdateOperation 7)).
  - vm_compute. reflexivity.
  - apply lastEntryOf_is_last_max. vm_compute. reflexivity.
Defined.

(** The loop body on a path of the prior log [tl] to which the fetched log
    has one entry more. *)
Lemma reconcile_after_append sha1 op clientID k timestamp tl v
  (m : TransactionEntry) :
  tl !! k = Some v →
  is_last_max (Entries v) m →
  ∃ v',
    append_entry sha1 op clientID k timestamp tl !! k = Some v' ∧
    reconcile k v' tl =
      Some (if decide (Timestamp m < timestamp)%Z
            then [if decide (op = DeleteOperation)
                  then ERemove k else EGetFile k]
            else []).
Proof.
  intros Hv Hm. eexists. split; [by apply append_entry_lookup|].
  unfold reconcile. rewrite Hv. simpl.
  rewrite (last_max_lastEntryOf _ _ Hm).
  destruct (decide (Timestamp m ≤ timestamp)%Z) as [Hle|Hgt].
  - rewrite (last_max_lastEntryOf _ _
               (last_max_snoc_newer _ m
                  {| Operation_ := op; ClientID := clientID;
                     Timestamp := timestamp |} Hm Hle)).
    simpl.
    destruct (Z.ltb_spec (Timestamp m) timestamp) as [Hlt|Hge];
      destruct (decide (Timestamp m < timestamp)%Z) as [Hd|Hd]; try lia.
    + by destruct (decide (op = DeleteOperation)).
    + assert (Timestamp m = timestamp) as -> by lia.
      by rewrite Z.eqb_refl.
  - rewrite (last_max_lastEntryOf _ _
               (last_max_snoc_older _ m
                  {| Operation_ := op; ClientID := clientID;
                     Timestamp := timestamp |} Hm ltac:(simpl; lia))).
    simpl. rewrite Z.ltb_irrefl, Z.eqb_refl.
    by destruct (decide (Timestamp m < timestamp)%Z); [lia|].
Qed.


(** X28: what [PostFile] of the synchronisation leaves on a node that has
    no envelope for the file, as the posting client reads it back with
    [GetFile]: a file shorter than 256 bytes cannot be read back at all,
    and of a longer one the first 256 bytes come back as the secret and
    only the rest as data. *)
Theorem sync_PostFile_then_GetFile sha1 (clientID : Identifier) path
  (fs : gmap string (list byte)) (c : Z) (s : file.Server) r' :
  length clientID = 20 →
  file.Get s (sha1 (String.list_byte_of_string path)) = None →
  Key (req_Header r') = sha1 (String.list_byte_of_string path) →
  From (req_Header r') = clientID →
  (file.GetFileHandler r'
     (file.PostFileHandler (PostFile_request sha1 clientID path fs c) s).2).1
  = if decide (256 ≤ length (ReadFile fs path))
    then envelope_format.GetFile_reply (take 256 (ReadFile fs path))
           (drop 256 (ReadFile fs path))
    else ErrorResponse.
Proof.
  intros Hlen Hget Hkey Hfrom.
  by rewrite (GetFile_after_unshared_create
                (PostFile_request sha1 clientID path fs c) r' s).
Qed.

Lemma sync_PostFile_then_GetFile_witness :
  (file.GetFileHandler (request GetFileMethod idA 0 [] [] [])
     (file.PostFileHandler
        (PostFile_request (fun _ => key0) idA "x.txt"
           {[ "x.txt" := long_data ]} 7) (empty_server 0)).2).1
  = if decide (256 ≤ length (ReadFile {[ "x.txt" := long_data ]} "x.txt"))
    then envelope_format.GetFile_reply
           (take 256 (ReadFile {[ "x.txt" := long_data ]} "x.txt"))
           (drop 256 (ReadFile {[ "x.txt" := long_data ]} "x.txt"))
    else ErrorResponse.
Proof.
  apply (sync_PostFile_then_GetFile (fun _ => key0) idA "x.txt"
           {[ "x.txt" := long_data ]} 7 (empty_server 0)
           (request GetFileMethod idA 0 [] [] [])).
  - reflexivity.
  - reflexivity.
  - reflexivity.
  - reflexivity.
Defined.

End SyncFacts.

(* ------------------------------------------------------------------ *)
(** ** Validation of the command line *)

Section Params.
Import params more_examples.

(** X29: [validateParams] accepts exactly these command lines: a peer
    address is given, and either the operation is [backup] or [sync] with
    a local path that [os.Stat] finds to be a directory, or it is
    [getfile] with a file name and a destination, or it is [share] with a
    file name.  The key files, the one of the user to share with included,
    play no part in it. *)
Theorem validateParams_accepts_iff (stat : string → option bool)
  (f : Flags) :
  validateParams stat f = None ↔
  peerAddr f ≠ "" ∧
  (((operation f = "backup" ∨ operation f = "sync") ∧
    localPath f ≠ "" ∧ stat (localPath f) = Some true) ∨
   (operation f = "getfile" ∧ filedest f ≠ "" ∧ filename f ≠ "") ∨
   (operation f = "share" ∧ filename f ≠ "")).
Proof.
  unfold validateParams, check_localPath.
  destruct (decide (peerAddr f = "")) as [Hp|Hp];
    [split; [done | intros [? _]; done]|].
  destruct (decide (operation f = "backup")) as [Hb|Hb].
  { rewrite Hb.
    destruct (decide (localPath f = "")) as [Hl|Hl];
      [|destruct (stat (localPath f)) as [[]|]; simpl];
      (split; [intros H; try discriminate H; intuition congruence
              | intuition congruence]). }
  destruct (decide (operation f = "sync")) as [Hs|Hs].
  { rewrite Hs.
    destruct (decide (localPath f = "")) as [Hl|Hl];
      [|destruct (stat (localPath f)) as [[]|]; simpl];
      (split; [intros H; try discriminate H; intuition congruence
              | intuition congruence]). }
  destruct (decide (operation f = "getfile")) as [Hg|Hg].
  { rewrite Hg.
    destruct (decide (filedest f = "")) as [Hd|Hd];
      [|destruct (decide (filename f = "")) as [Hn|Hn]];
      (split; [intros H; try discriminate H; intuition congruence
              | intuition congruence]). }
  destruct (decide (operation f = "share")) as [Hh|Hh].
  { rewrite Hh.
    destruct (decide (filename f = "")) as [Hn|Hn];
      (split; [intros H; try discriminate H; intuition congruence
              | intuition congruence]). }
  split; [done | intuition congruence].
Qed.

Lemma validateParams_accepts_share_without_key :
  validateParams (fun _ => None) share_flags = None.
Proof.
  apply (proj2 (validateParams_accepts_iff (fun _ => None) share_flags)).
  vm_compute. split; [discriminate|].
  right. right. split; [reflexivity | discriminate].
Defined.

End Params.

(* ------------------------------------------------------------------ *)
(** ** Past the bound of the count byte *)

Section CountOverflow.
Import file envelope_format examples more_examples.

(** The bound in the two statements on sharing is needed: a first
    [PostFile] that shares with 255 users stores the count byte 0, and
    [GetFile] on the key is then refused to everybody. *)
Lemma first_PostFile_255_shares_locks_out (r r' : Request) (s : Server) :
  Get s (Key (req_Header r)) = None →
  length (SharedWith (req_Header r)) = 255 →
  Key (req_Header r') = Key (req_Header r) →
  (GetFileHandler r' (PostFileHandler r s).2).1 = ErrorResponse.
Proof.
  intros Hget Hlen Hkey.
  pose proof (PostFileHandler_absent r s Hget) as Hpost. cbv zeta in Hpost.
  rewrite Hpost. unfold Post. cbn [snd].
  rewrite (GetFileHandler_parsed r' _
             (x00 :: From (req_Header r) ++ Secret (req_Header r)
                ++ concat (map put_shareWith (SharedWith (req_Header r)))
                ++ req_Data r)
             [] (From (req_Header r) ++ Secret (req_Header r)
                ++ concat (map put_shareWith (SharedWith (req_Header r)))
                ++ req_Data r)).
  - reflexivity.
  - unfold Get. cbn [blobs]. rewrite Hkey, Hlen. apply lookup_insert_eq.
  - apply (read_header_envelope [] _); [constructor | simpl; lia].
Qed.

End CountOverflow.

(* ------------------------------------------------------------------ *)
(** ** [Synchronize], the walk included *)

Section SyncWalk.
Import client sync_vocabulary examples sync_examples more_examples.
Import client_walk walk_examples.

Implicit Types (k : string) (v oldv : TransactionEntity)
  (old tl : TransactionLog) (e : Effect) (calls : list WalkCall).

Lemma Walk_with_FileInfo calls tl :
  Forall has_FileInfo calls →
  Walk calls tl = (walk (files_of calls) tl, Returned tt).
Proof.
  induction 1 as [|c calls Hc _ IH]; [done|].
  simpl. unfold walkFn, files_of, walk in *. unfold has_FileInfo in Hc.
  destruct (wc_fi c) as [[]|] eqn:Hfi; [| |done].
  - simpl. rewrite IH.
    rewrite (filter_cons_False _ c calls) by (rewrite Hfi; discriminate).
    done.
  - simpl. rewrite (filter_cons_True _ c calls) by done. simpl.
    case_decide as Hk; rewrite IH.
    + by rewrite filter_cons_True.
    + by rewrite filter_cons_False.
Qed.

(** A walk in which every [Lstat] succeeds is the walk over its files. *)
Lemma Synchronize_with_FileInfo calls fetched old :
  Forall has_FileInfo calls →
  client_walk.Synchronize calls fetched old
  = client.Synchronize (files_of calls) fetched old.
Proof.
  intros Hok. unfold client_walk.Synchronize, client.Synchronize.
  by rewrite Walk_with_FileInfo.
Qed.

Lemma Walk_nil_FileInfo pre c post tl :
  Forall has_FileInfo pre → wc_fi c = None →
  Walk (pre ++ c :: post) tl = (walk (files_of pre) tl, Panicked).
Proof.
  intros Hpre Hc.
  induction Hpre as [|c0 pre Hc0 Hpre IH].
  - simpl. unfold walkFn. by rewrite Hc.
  - pose proof (Walk_with_FileInfo [c0] tl
                  (Forall_cons_2 _ _ _ Hc0 (Forall_nil_2 _))) as H0.
    simpl in H0. simpl. destruct (walkFn tl c0) as [effs|]; [|done].
    rewrite IH. injection H0 as H0. rewrite app_nil_r in H0.
    unfold walk, files_of in *. rewrite H0.
    rewrite <- map_app, <- filter_app, <- map_app.
    by rewrite <- filter_app.
Qed.

Lemma range_tl_entries_to_read kvs tl old :
  entries_to_read tl old →
  (∀ k v, (k, v) ∈ kvs → tl !! k = Some v) →
  ∃ effs, range_tl kvs old = (effs, Returned tt).
Proof.
  intros Hread Hin. apply range_tl_returns. intros k v Hkv.
  destruct (Hread k v (Hin k v Hkv)) as [Hv Ho].
  rewrite reconcile_panics. intros [?|(oldv & Hold & ?)]; [done|].
  by apply (Ho oldv).
Qed.

Lemma reconcile_paths k v old effs :
  reconcile k v old = Some effs → Forall (fun e => path_of e = k) effs.
Proof.
  intros H. apply Forall_forall. intros e Hin.
  destruct (reconcile_effect_inv _ _ _ _ _ H Hin)
    as (rl & _ & [[_ ->]|(oldv & ll & _ & _ & [[_ ->]|[_ ->]])]);
    [done| |]; by case_decide.
Qed.

Lemma filter_path_all k (effs : list Effect) :
  Forall (fun e => path_of e = k) effs →
  filter (fun e => path_of e = k) effs = effs.
Proof.
  induction 1 as [|e effs He _ IH]; [done|].
  by rewrite filter_cons_True, IH.
Qed.

Lemma filter_path_none k k' (effs : list Effect) :
  k' ≠ k → Forall (fun e => path_of e = k') effs →
  filter (fun e => path_of e = k) effs = [].
Proof.
  intros Hne. induction 1 as [|e effs He _ IH]; [done|].
  by rewrite filter_cons_False by congruence.
Qed.

Lemma range_tl_filter_absent k kvs old :
  k ∉ kvs.*1 → filter (fun e => path_of e = k) (range_tl kvs old).1 = [].
Proof.
  induction kvs as [|[k' v'] kvs IH]; [done|]. simpl.
  intros [Hne Hnot]%not_elem_of_cons.
  destruct (reconcile k' v' old) as [effs|] eqn:E; [|done].
  destruct (range_tl kvs old) as [effs' out]. simpl in *.
  rewrite filter_app, (IH Hnot), app_nil_r.
  apply (filter_path_none k k'); [done | by eapply reconcile_paths].
Qed.

(** What a returning loop has done about one path: what the loop body did
    at the entity of that path, whatever the order of the range. *)
Lemma range_tl_filter k v kvs old effs ek :
  NoDup kvs.*1 → (k, v) ∈ kvs →
  range_tl kvs old = (effs, Returned tt) →
  reconcile k v old = Some ek →
  filter (fun e => path_of e = k) effs = ek.
Proof.
  revert effs. induction kvs as [|[k' v'] kvs IH]; intros effs Hnd Hin.
  { by apply not_elem_of_nil in Hin. }
  simpl in Hnd. apply NoDup_cons in Hnd as [Hnot Hnd]. simpl.
  destruct (reconcile k' v' old) as [e'|] eqn:E; [|done].
  destruct (range_tl kvs old) as [effs' out] eqn:E'.
  intros [= <- ->] Hk. rewrite filter_app.
  apply elem_of_cons in Hin as [[= <- <-]|Hin].
  - rewrite E in Hk. injection Hk as <-.
    pose proof (range_tl_filter_absent k kvs old Hnot) as Habs.
    rewrite E' in Habs. simpl in Habs. rewrite Habs, app_nil_r.
    apply filter_path_all. by eapply reconcile_paths.
  - assert (k' ≠ k) as Hne.
    { intros ->. apply Hnot. apply list_elem_of_fmap. by exists (k, v). }
    rewrite (filter_path_none k k' e' Hne) by (by eapply reconcile_paths).
    by apply IH.
Qed.

Lemma walk_filter_known k v files tl :
  tl !! k = Some v → filter (fun e => path_of e = k) (walk files tl) = [].
Proof.
  intros Hk. unfold walk. induction files as [|path files IH]; [done|].
  destruct (decide (tl !! path = None)) as [Hp|Hp].
  - rewrite filter_cons_True by done. simpl.
    rewrite filter_cons_False; [done|]. simpl. congruence.
  - by rewrite filter_cons_False.
Qed.

(** *** C1: reconciling a path known to both logs *)

(** C1: take a run of [Synchronize] that can go through: every [Lstat] of
    the walk succeeds and every entity the loop reads has an entry.  For
    every path [k] that the fetched log [tl] and the prior log both have,
    the run returns and selects in each of the two entry lists the entry of
    maximum timestamp, the later one in the list on ties.  What the run
    does about [k] is then: if the prior entry is strictly older, one
    download of the file, or one removal of the local file when the remote
    entry is a [Delete]; on equal timestamps nothing; if the prior entry is
    strictly newer, one [PostFile], or one [DeleteFile] when the prior
    entry is a [Delete]. *)
Theorem Synchronize_reconciles_known_path calls tl old k v oldv
  (remote_last local_last : TransactionEntry) :
  Forall has_FileInfo calls →
  entries_to_read tl old →
  tl !! k = Some v →
  old !! k = Some oldv →
  is_last_max (Entries v) remote_last →
  is_last_max (Entries oldv) local_last →
  ∃ effs,
    client_walk.Synchronize calls (Some tl) old = (effs, Returned tl) ∧
    lastEntryOf (Entries v) = Some remote_last ∧
    lastEntryOf (Entries oldv) = Some local_last ∧
    ((Timestamp local_last < Timestamp remote_last)%Z →
     filter (fun e => path_of e = k) effs
     = [if decide (Operation_ remote_last = DeleteOperation)
        then ERemove k else EGetFile k]) ∧
    (Timestamp local_last = Timestamp remote_last →
     filter (fun e => path_of e = k) effs = []) ∧
    ((Timestamp local_last > Timestamp remote_last)%Z →
     filter (fun e => path_of e = k) effs
     = [if decide (Operation_ local_last = DeleteOperation)
        then EDeleteFile k else EPostFile k]).
Proof.
  intros Hcalls Hread Hk Hold Hremote Hlocal.
  destruct (range_tl_entries_to_read (map_to_list tl) tl old Hread)
    as [effs0 Hrange].
  { intros k' v' Hin. by apply elem_of_map_to_list. }
  exists (walk (files_of calls) tl ++ effs0).
  destruct (reconcile_known_path k v oldv old remote_last local_last
              Hold Hremote Hlocal) as (Hrl & Hll & Hlt & Heq & Hgt).
  split.
  { rewrite Synchronize_with_FileInfo by done.
    unfold client.Synchronize. simpl. by rewrite Hrange. }
  split; [done|]. split; [done|].
  assert (∀ ek, reconcile k v old = Some ek →
            filter (fun e => path_of e = k)
              (walk (files_of calls) tl ++ effs0) = ek) as Hfilter.
  { intros ek Hek. rewrite filter_app, (walk_filter_known k v) by done.
    simpl. apply (range_tl_filter k v (map_to_list tl) old); try done.
    - apply NoDup_fst_map_to_list.
    - by apply elem_of_map_to_list. }
  split_and!; intros H; apply Hfilter; auto.
Qed.

Lemma remote_log_entries k v :
  remote_log !! k = Some v → Entries v ≠ [].
Proof.
  unfold remote_log.
  destruct (decide (k = "a.txt")) as [->|Ha].
  - rewrite lookup_insert_eq. by intros [= <-].
  - rewrite lookup_insert_ne by done.
    destruct (decide (k = "b.txt")) as [->|Hb].
    + rewrite lookup_singleton_eq. by intros [= <-].
    + by rewrite lookup_singleton_ne.
Qed.

Lemma prior_log_entries k v :
  prior_log !! k = Some v → Entries v ≠ [].
Proof.
  unfold prior_log.
  destruct (decide (k = "a.txt")) as [->|Ha].
  - rewrite lookup_singleton_eq. by intros [= <-].
  - by rewrite lookup_singleton_ne.
Qed.

Lemma Synchronize_reconciles_known_path_witness :
  ∃ effs,
    client_walk.Synchronize calls_ok (Some remote_log) prior_log
    = (effs, Returned remote_log) ∧
    lastEntryOf (Entries remote_a) = Some (entry UpdateOperation 7) ∧
    lastEntryOf (Entries prior_a) = Some (entry UpdateOperation 3) ∧
    ((3 < 7)%Z →
     filter (fun e => path_of e = "a.txt") effs = [EGetFile "a.txt"]) ∧
    (3%Z = 7%Z → filter (fun e => path_of e = "a.txt") effs = []) ∧
    ((3 > 7)%Z →
     filter (fun e => path_of e = "a.txt") effs = [EPostFile "a.txt"]).
Proof.
  apply (Synchronize_reconciles_known_path calls_ok remote_log prior_log
           "a.txt" remote_a prior_a
           (entry UpdateOperation 7) (entry UpdateOperation 3)).
  - repeat constructor; discriminate.
  - intros k v Hk. split; [by apply (remote_log_entries k)|].
    intros oldv. apply prior_log_entries.
  - vm_compute. reflexivity.
  - vm_compute. reflexivity.
  - apply lastEntryOf_is_last_max. vm_compute. reflexivity.
  - apply lastEntryOf_is_last_max. vm_compute. reflexivity.
Defined.

(** The run of the example in full: the walk posts the one file the log
    does not have, the loop downloads the two paths of the log. *)
Lemma Synchronize_walk_example :
  client_walk.Synchronize calls_ok (Some remote_log) prior_log
  = ([EPostFile "c.txt"; EGetFile "a.txt"; EGetFile "b.txt"],
     Returned remote_log).
Proof. vm_compute. reflexivity. Qed.

(** *** The walk when the log could not be fetched *)

(** X24: when the log cannot be fetched, [Synchronize] goes on with the
    empty log: it posts every non-directory the walk comes to and does
    nothing else.  If every [Lstat] of the walk succeeds it returns, with
    the empty log as the prior log of the next round; at the first entry
    whose [Lstat] failed it panics, on [fi.IsDir()] of the nil [FileInfo],
    having posted the files before that entry. *)
Theorem Synchronize_fetch_failed calls old :
  (Forall has_FileInfo calls →
   client_walk.Synchronize calls None old
   = (map EPostFile (files_of calls), Returned ∅)) ∧
  (∀ pre c post,
     calls = pre ++ c :: post → Forall has_FileInfo pre → wc_fi c = None →
     client_walk.Synchronize calls None old
     = (map EPostFile (files_of pre), Panicked)).
Proof.
  split.
  - intros Hok. rewrite Synchronize_with_FileInfo by done.
    apply Synchronize_fetch_failed_files.
  - intros pre c post -> Hpre Hc. unfold client_walk.Synchronize. simpl.
    rewrite Walk_nil_FileInfo by done. f_equal.
    pose proof (Synchronize_fetch_failed_files (files_of pre) old) as H.
    unfold client.Synchronize in H. simpl in H.
    rewrite map_to_list_empty in H. simpl in H.
    rewrite app_nil_r in H. by injection H.
Qed.

Lemma Synchronize_fetch_failed_witness :
  client_walk.Synchronize calls_broken None prior_log
  = (map EPostFile
       (files_of [ {| wc_path := "c.txt"; wc_fi := Some false |} ]),
     Panicked).
Proof.
  apply (proj2 (Synchronize_fetch_failed calls_broken prior_log)
           [ {| wc_path := "c.txt"; wc_fi := Some false |} ]
           {| wc_path := "gone"; wc_fi := None |}
           [ {| wc_path := "z.txt"; wc_fi := Some false |} ]).
  - reflexivity.
  - repeat constructor; discriminate.
  - reflexivity.
Defined.

(** *** The client's own writes to the log *)

(** X25: the client's own writes to the log never make the loop of
    [Synchronize] panic: when every entity of a log and of the prior log
    has an entry, a round on that log as [PostFile] or [DeleteFile]
    rewrites it (one entry appended to the entity of the path, or an
    entity created with one entry) returns, and returns that log,
    provided every [Lstat] of the walk succeeds. *)
Theorem append_entry_keeps_Synchronize_safe sha1 op clientID path timestamp
  calls tl old :
  Forall has_FileInfo calls →
  entries_nonempty tl → entries_nonempty old →
  ∃ effs,
    client_walk.Synchronize calls
      (Some (append_entry sha1 op clientID path timestamp tl)) old
    = (effs, Returned (append_entry sha1 op clientID path timestamp tl)).
Proof.
  intros Hcalls Htl Hold.
  pose proof (append_entry_nonempty sha1 op clientID path timestamp tl Htl)
    as Hne.
  destruct (range_tl_entries_to_read
              (map_to_list (append_entry sha1 op clientID path timestamp tl))
              (append_entry sha1 op clientID path timestamp tl) old)
    as [effs0 Hrange].
  { intros k v Hk. split; [by apply (Hne k)|]. intros oldv. apply Hold. }
  { intros k v Hin. by apply elem_of_map_to_list. }
  eexists. rewrite Synchronize_with_FileInfo by done.
  unfold client.Synchronize. simpl. by rewrite Hrange.
Qed.

Lemma append_entry_keeps_Synchronize_safe_witness :
  ∃ effs,
    client_walk.Synchronize calls_ok
      (Some (append_entry (fun _ => key0) DeleteOperation idB "a.txt" 9
               remote_log)) prior_log
    = (effs,
       Returned (append_entry (fun _ => key0) DeleteOperation idB "a.txt" 9
                   remote_log)).
Proof.
  apply (append_entry_keeps_Synchronize_safe (fun _ => key0) DeleteOperation
           idB "a.txt" 9 calls_ok remote_log prior_log).
  - repeat constructor; discriminate.
  - exact remote_log_entries.
  - exact prior_log_entries.
Defined.

(** *** A write of another client *)

Lemma append_entry_lookup_ne sha1 op clientID path timestamp tl k :
  path ≠ k →
  append_entry sha1 op clientID path timestamp tl !! k = tl !! k.
Proof.
  intros Hne. unfold append_entry.
  destruct (tl !! path); by rewrite lookup_insert_ne.
Qed.

Lemma range_tl_all_nil kvs old :
  (∀ k v, (k, v) ∈ kvs → reconcile k v old = Some []) →
  range_tl kvs old = ([], Returned tt).
Proof.
  induction kvs as [|[k v] kvs IH]; [done|]. intros H. simpl.
  rewrite (H k v) by (apply elem_of_cons; by left).
  rewrite IH; [done|]. intros k' v' Hin. apply H. apply elem_of_cons.
  by right.
Qed.

Lemma range_tl_only k v ek kvs old :
  NoDup kvs.*1 → (k, v) ∈ kvs →
  reconcile k v old = Some ek →
  (∀ k' v', (k', v') ∈ kvs → k' ≠ k → reconcile k' v' old = Some []) →
  range_tl kvs old = (ek, Returned tt).
Proof.
  induction kvs as [|[k' v'] kvs IH]; intros Hnd Hin Hk Hothers.
  { by apply not_elem_of_nil in Hin. }
  simpl in Hnd. apply NoDup_cons in Hnd as [Hnot Hnd]. simpl.
  apply elem_of_cons in Hin as [[= <- <-]|Hin].
  - rewrite Hk. rewrite range_tl_all_nil; [by rewrite app_nil_r|].
    intros k'' v'' Hin. apply Hothers; [apply elem_of_cons; by right|].
    intros ->. apply Hnot. apply list_elem_of_fmap. by exists (k, v'').
  - assert (k' ≠ k) as Hne.
    { intros ->. apply Hnot. apply list_elem_of_fmap. by exists (k, v). }
    rewrite (Hothers k' v') by (done || apply elem_of_cons; by left).
    rewrite IH; try done.
    intros k'' v'' Hin'. apply Hothers. apply elem_of_cons. by right.
Qed.

(** X27: how a write of another client reaches this one.  The prior log is
    [tl], every entity of which has an entry; the fetched log is [tl] with
    one entry appended to a path [k] that [tl] has; every [Lstat] of the
    walk succeeds.  The round returns the fetched log, and apart from the
    posts of the walk it does this: if the appended timestamp is strictly
    greater than every timestamp of the path, it downloads the file, or
    removes the local copy when the entry is a [Delete]; if the appended
    timestamp equals the greatest timestamp of the path, or is smaller, it
    does nothing at all, so that a write stamped with the clock value of
    the newest known entry is not propagated. *)
Theorem Synchronize_after_remote_append sha1 op clientID k timestamp
  calls tl v (m : TransactionEntry) :
  Forall has_FileInfo calls →
  entries_nonempty tl →
  tl !! k = Some v →
  is_last_max (Entries v) m →
  client_walk.Synchronize calls
    (Some (append_entry sha1 op clientID k timestamp tl)) tl
  = (walk (files_of calls) (append_entry sha1 op clientID k timestamp tl)
       ++ (if decide (Timestamp m < timestamp)%Z
           then [if decide (op = DeleteOperation)
                 then ERemove k else EGetFile k]
           else []),
     Returned (append_entry sha1 op clientID k timestamp tl)).
Proof.
  intros Hcalls Hne Hk Hm.
  destruct (reconcile_after_append sha1 op clientID k timestamp tl v m Hk Hm)
    as (v' & Hv' & Hrec).
  rewrite Synchronize_with_FileInfo by done.
  unfold client.Synchronize. simpl.
  rewrite (range_tl_only k v' _ _ tl (NoDup_fst_map_to_list _)
             (proj2 (elem_of_map_to_list _ k v') Hv') Hrec); [done|].
  intros k' v'' Hin%elem_of_map_to_list Hkk.
  rewrite append_entry_lookup_ne in Hin by done.
  apply reconcile_same; [done | by apply (Hne k')].
Qed.

Lemma Synchronize_after_remote_append_witness :
  client_walk.Synchronize calls_ok
    (Some (append_entry (fun _ => key0) DeleteOperation idB "a.txt" 9
             remote_log)) remote_log
  = (walk (files_of calls_ok)
       (append_entry (fun _ => key0) DeleteOperation idB "a.txt" 9
          remote_log)
       ++ (if decide (Timestamp (entry UpdateOperation 7) < 9)%Z
           then [if decide (DeleteOperation = DeleteOperation)
                 then ERemove "a.txt" else EGetFile "a.txt"]
           else []),
     Returned (append_entry (fun _ => key0) DeleteOperation idB "a.txt" 9
                 remote_log)).
Proof.
  apply (Synchronize_after_remote_append (fun _ => key0) DeleteOperation idB
           "a.txt" 9 calls_ok remote_log remote_a (entry UpdateOperation 7)).
  - repeat constructor; discriminate.
  - exact remote_log_entries.
  - vm_compute. reflexivity.
  - apply lastEntryOf_is_last_max. vm_compute. reflexivity.
Defined.

(** The same round, evaluated: the walk posts [c.txt], the loop removes the
    local copy of [a.txt] and touches nothing else. *)
Lemma Synchronize_after_remote_append_example :
  (client_walk.Synchronize calls_ok
     (Some (append_entry (fun _ => key0) DeleteOperation idB "a.txt" 9
              remote_log)) remote_log).1
  = [EPostFile "c.txt"; ERemove "a.txt"].
Proof. vm_compute. reflexivity. Qed.

End SyncWalk.
